(** * SCORM content navigator: runtime data store, manifest play-list,
      package store and API discovery

    A shallow embedding of the TypeScript sources
      - [scorm-api.ts]             (class [LocalSCORMDataStore]),
      - [scorm-manifest.ts]        (class [SCORMManifestParser]),
      - [scorm-package-manager.ts] (class [SCORMPackageManager]),
      - [SCORMPlayer.tsx]          (the injected [findAPI])
    together with the properties the specification states about them.

    JavaScript strings are sequences of UTF-16 code units; they are modelled
    as [list N].  The plain object [this.data] used as a dictionary is a
    [gmap]; the regular expressions of the validator and of the sanitizer are
    terms of a small regex language run by a backtracking matcher that follows
    the ECMAScript matcher semantics (continuation passing, greedy
    quantifiers, rejected empty iterations). *)

From stdpp Require Import gmap strings list sorting.
From Stdlib Require Import NArith ZArith Lia.

Local Open Scope N_scope.
Local Open Scope nat_scope.

(** ** JavaScript strings *)

Module JSString.

(** A string value: its UTF-16 code units. *)
Abbreviation jsstring := (list N).

(** String literals of the source, all ASCII. *)
Definition js (s : string) : jsstring :=
  List.map Ascii.N_of_ascii (String.list_ascii_of_string s).

Definition in_range (lo hi c : N) : bool := ((lo <=? c) && (c <=? hi))%N.

(** [\d] is [0-9]. *)
Definition isDigit (c : N) : bool := in_range 48 57 c.

(** [\w] is [A-Za-z0-9_] (also under the [i] flag when [u] is absent). *)
Definition isWordChar (c : N) : bool :=
  in_range 97 122 c || in_range 65 90 c || in_range 48 57 c || (c =? 95)%N.

(** [\s] and [trim]: WhiteSpace and LineTerminator code points. *)
Definition isWhiteSpace (c : N) : bool :=
  in_range 9 13 c || (c =? 32)%N || (c =? 160)%N || (c =? 5760)%N
  || in_range 8192 8202 c || (c =? 8232)%N || (c =? 8233)%N
  || (c =? 8239)%N || (c =? 8287)%N || (c =? 12288)%N || (c =? 65279)%N.

(** The code units from [-] to [:], which hold the digits, the sign, the
    point and the colon. *)
Definition plain (c : N) : bool := in_range 45 58 c.

(** Case folding of one code unit.  The ECMAScript [Canonicalize] and
    [toLowerCase] never send a code unit above 127 to an ASCII letter that
    takes part in the comparisons of this program (the literals compared
    against are ASCII), so only the ASCII letters are folded. *)
Definition toUpperUnit (c : N) : N := if in_range 97 122 c then (c - 32)%N else c.
Definition toLowerUnit (c : N) : N := if in_range 65 90 c then (c + 32)%N else c.

Definition toLowerCase (s : jsstring) : jsstring := List.map toLowerUnit s.

(** [s.endsWith(t)] *)
Definition endsWith (s t : jsstring) : bool :=
  bool_decide (drop (length s - length t) s = t).

(** [s.trim()] *)
Fixpoint trimStart (s : jsstring) : jsstring :=
  match s with
  | c :: s' => if isWhiteSpace c then trimStart s' else s
  | [] => []
  end.

Definition trimEnd (s : jsstring) : jsstring := reverse (trimStart (reverse s)).

Definition trim (s : jsstring) : jsstring := trimEnd (trimStart s).

(** [s.substring(0, n)] *)
Definition substring0 (n : nat) (s : jsstring) : jsstring := take n s.

(** Truthiness of a string that may be [undefined] or [null]. *)
Definition truthy (o : option jsstring) : bool :=
  match o with
  | Some (_ :: _) => true
  | _ => false
  end.

(** [o || d] for such a value. *)
Definition orElse (o : option jsstring) (d : jsstring) : jsstring :=
  match o with
  | Some (c :: s) => c :: s
  | _ => d
  end.

End JSString.

Import JSString.

(** ** Regular expressions *)

Module Regex.

(** The fragment of the pattern language the sources use.  [Chars p] is any
    atom matching one code unit (a literal, a class escape, a bracket class);
    [Quant lo hi r] is a greedy quantifier ([*] is [Quant 0 None], [+] is
    [Quant 1 None], [?] is [Quant 0 (Some 1)], [{a,b}] is
    [Quant a (Some b)]); [NegLook r] is [(?!r)]; [WordBoundary] is [\b];
    [Bol] and [Eol] are [^] and [$] without the [m] flag. *)
Inductive regex : Type :=
| Empty
| Chars (p : N -> bool)
| Seq (r1 r2 : regex)
| Quant (lo : nat) (hi : option nat) (r : regex)
| NegLook (r : regex)
| WordBoundary
| Bol
| Eol.

(** A position in the input: the code units before it, nearest first, and
    the code units after it. *)
Definition pos : Type := list N * list N.

Definition start (s : jsstring) : pos := ([], s).

Definition wordAt (o : option N) : bool :=
  match o with
  | Some c => isWordChar c
  | None => false
  end.

Definition atBoundary (x : pos) : bool :=
  xorb (wordAt (head x.1)) (wordAt (head x.2)).

(** [RepeatMatcher] once the minimum is reached: try one more iteration
    that consumes input, else continue with [k]. *)
Fixpoint more {A : Type} (mr : pos -> (pos -> option A) -> option A)
    (k : pos -> option A) (fuel : nat) (hi : option nat) (x : pos) : option A :=
  match hi with
  | Some 0 => k x
  | _ =>
    match fuel with
    | 0 => k x
    | S f =>
      match mr x (fun y => if length y.2 =? length x.2 then None
                           else more mr k f (pred <$> hi) y) with
      | Some a => Some a
      | None => k x
      end
    end
  end.

(** [RepeatMatcher] while iterations are still mandatory. *)
Fixpoint must {A : Type} (mr : pos -> (pos -> option A) -> option A)
    (k : pos -> option A) (lo : nat) (hi : option nat) (x : pos) : option A :=
  match hi with
  | Some 0 => k x
  | _ =>
    match lo with
    | S lo' => mr x (fun y => must mr k lo' (pred <$> hi) y)
    | 0 => more mr k (length x.2) hi x
    end
  end.

(** The matcher of a pattern, in continuation-passing style: [m r x k] runs
    [r] at [x] and hands every end position, in priority order, to [k] until
    [k] succeeds. *)
Fixpoint m {A : Type} (r : regex) (x : pos) (k : pos -> option A) : option A :=
  match r with
  | Empty => k x
  | Chars p =>
    match x.2 with
    | c :: rest => if p c then k (c :: x.1, rest) else None
    | [] => None
    end
  | Seq r1 r2 => m r1 x (fun y => m r2 y k)
  | Quant lo hi r' => must (fun y k' => m r' y k') k lo hi x
  | NegLook r' =>
    match m r' x (fun _ => Some tt) with
    | Some _ => None
    | None => k x
    end
  | WordBoundary => if atBoundary x then k x else None
  | Bol => match x.1 with [] => k x | _ => None end
  | Eol => match x.2 with [] => k x | _ => None end
  end.

(** The end of the first match of [r] that starts at [x]. *)
Definition matchAt (r : regex) (x : pos) : option pos := m r x Some.

(** [RegExpBuiltinExec] from [lastIndex = 0]: the leftmost start position
    with a match, and the end of that match. *)
Fixpoint search (r : regex) (before after : list N) : option (pos * pos) :=
  match matchAt r (before, after) with
  | Some y => Some ((before, after), y)
  | None =>
    match after with
    | c :: rest => search r (c :: before) rest
    | [] => None
    end
  end.

(** [r.test(s)] *)
Definition test (r : regex) (s : jsstring) : bool :=
  match search r [] s with
  | Some _ => true
  | None => false
  end.

(** [s.replace(r, repl)] for a pattern with the [g] flag and a replacement
    string without [$] references: every match, scanning left to right, is
    replaced; after an empty match the scan advances by one code unit. *)
Fixpoint replaceFrom (r : regex) (repl : jsstring) (fuel : nat) (x : pos) : jsstring :=
  match fuel with
  | 0 => x.2
  | S f =>
    let step := match x.2 with
                | c :: rest => c :: replaceFrom r repl f (c :: x.1, rest)
                | [] => []
                end in
    match matchAt r x with
    | Some y =>
      if length y.2 =? length x.2 then repl ++ step
      else repl ++ replaceFrom r repl f y
    | None => step
    end
  end.

Definition replaceAll (r : regex) (repl : jsstring) (s : jsstring) : jsstring :=
  replaceFrom r repl (S (length s)) (start s).

(** *** Building patterns *)

(** A literal code unit. *)
Definition chr (c : N) : regex := Chars (N.eqb c).

(** A literal code unit under the [i] flag. *)
Definition chrI (c : N) : regex := Chars (fun u => (toUpperUnit u =? toUpperUnit c)%N).

(** A literal string, and a literal string under the [i] flag. *)
Definition lit (s : string) : regex := foldr (fun c r => Seq (chr c) r) Empty (js s).
Definition litI (s : string) : regex := foldr (fun c r => Seq (chrI c) r) Empty (js s).

(** A negated bracket class [[^...]]. *)
Definition noneOf (s : string) : regex := Chars (fun u => negb (bool_decide (u ∈ js s))).

Definition star (r : regex) : regex := Quant 0 None r.
Definition plus (r : regex) : regex := Quant 1 None r.
Definition opt (r : regex) : regex := Quant 0 (Some 1) r.

Definition digit : regex := Chars isDigit.
Definition word : regex := Chars isWordChar.
Definition space : regex := Chars isWhiteSpace.

Fixpoint seqs (rs : list regex) : regex :=
  match rs with
  | [] => Empty
  | [r] => r
  | r :: rs' => Seq r (seqs rs')
  end.

(** *** Declarative meaning of a pattern *)

(** Iterations of a quantified atom: [reps R lo hi x y] when some number of
    [R]-steps allowed by the bounds leads from [x] to [y]; a step taken after
    the minimum is reached has to consume input. *)
Inductive reps (R : pos -> pos -> Prop) : nat -> option nat -> pos -> pos -> Prop :=
| reps_full lo x : reps R lo (Some 0) x x
| reps_done hi x : reps R 0 hi x x
| reps_must lo hi x y z :
    hi ≠ Some 0 -> R x y -> reps R lo (pred <$> hi) y z -> reps R (S lo) hi x z
| reps_more hi x y z :
    hi ≠ Some 0 -> R x y -> length y.2 ≠ length x.2 ->
    reps R 0 (pred <$> hi) y z -> reps R 0 hi x z.

Fixpoint matches (r : regex) (x y : pos) : Prop :=
  match r with
  | Empty => y = x
  | Chars p => ∃ c rest, x.2 = c :: rest ∧ p c = true ∧ y = (c :: x.1, rest)
  | Seq r1 r2 => ∃ z, matches r1 x z ∧ matches r2 z y
  | Quant lo hi r' => reps (matches r') lo hi x y
  | NegLook r' => y = x ∧ ¬ ∃ z, matches r' x z
  | WordBoundary => y = x ∧ atBoundary x = true
  | Bol => y = x ∧ x.1 = []
  | Eol => y = x ∧ x.2 = []
  end.

(** A syntactic test that every match of a pattern is non-empty. *)
Fixpoint consuming (r : regex) : bool :=
  match r with
  | Chars _ => true
  | Seq r1 r2 => consuming r1 || consuming r2
  | Quant (S _) hi r' => negb (bool_decide (hi = Some 0)) && consuming r'
  | _ => false
  end.

(** [y] is [x] moved forward over [w]. *)
Definition advances (x y : pos) (w : list N) : Prop :=
  x.2 = w ++ y.2 ∧ y.1 = reverse w ++ x.1.

(** The atom a match has to start with, for a pattern that starts with
    one. *)
Fixpoint leading (r : regex) : option (N -> bool) :=
  match r with
  | Chars p => Some p
  | Seq r1 _ => leading r1
  | _ => None
  end.

(** [s.replace(r, repl)] for a pattern without the [g] flag: the leftmost
    match alone is replaced. *)
Definition replaceFirstMatch (r : regex) (repl s : jsstring) : jsstring :=
  match search r [] s with
  | Some (x, y) => reverse x.1 ++ repl ++ y.2
  | None => s
  end.

End Regex.

Import Regex.

(** ** The runtime data store ([LocalSCORMDataStore])

    The class with validation and sanitization.  The sources also carry an
    earlier copy of it whose [setValue] stores the value as given; life
    cycle, read-only test and defaults are the same in both. *)

Module DataStore.

(** Error codes. *)
Definition NO_ERROR : jsstring := js "0".
Definition ALREADY_INITIALIZED : jsstring := js "101".
Definition NOT_INITIALIZED : jsstring := js "112".
Definition READ_ONLY : jsstring := js "403".
Definition INVALID_DATA : jsstring := js "405".

(** The fields of an instance: [data] is the object used as a dictionary
    from element names to values.  Only its own keys are modelled; the
    members an object inherits from [Object.prototype] are not. *)
Record store : Type := Store {
  data : gmap jsstring jsstring;
  initialized : bool;
  errorCode : jsstring
}.

Definition setError (code : jsstring) (s : store) : store :=
  {| data := data s; initialized := initialized s; errorCode := code |}.

(** The object literal of the constructor. *)
Definition defaults (userId : option jsstring) : list (jsstring * jsstring) :=
  [ (js "cmi.core.student_id", orElse userId (js "student_001"));
    (js "cmi.core.student_name", js "Student");
    (js "cmi.core.lesson_location", js "");
    (js "cmi.core.credit", js "credit");
    (js "cmi.core.lesson_status", js "not attempted");
    (js "cmi.core.entry", js "ab-initio");
    (js "cmi.core.lesson_mode", js "normal");
    (js "cmi.core.exit", js "");
    (js "cmi.core.session_time", js "00:00:00");
    (js "cmi.core.total_time", js "00:00:00");
    (js "cmi.core.score.raw", js "");
    (js "cmi.core.score.max", js "");
    (js "cmi.core.score.min", js "");
    (js "cmi.suspend_data", js "");
    (js "cmi.launch_data", js "");
    (js "cmi.comments", js "");
    (js "cmi.comments_from_lms", js "") ].

(** [new LocalSCORMDataStore(userId, courseId)] *)
Definition construct (userId courseId : option jsstring) : store :=
  {| data := list_to_map (defaults userId);
     initialized := false;
     errorCode := js "0" |}.

Definition initialize (s : store) : bool * store :=
  if initialized s then (false, setError ALREADY_INITIALIZED s)
  else (true, {| data := data s; initialized := true; errorCode := NO_ERROR |}).

Definition terminate (s : store) : bool * store :=
  if negb (initialized s) then (false, setError NOT_INITIALIZED s)
  else (true, {| data := data s; initialized := false; errorCode := NO_ERROR |}).

Definition getValue (element : jsstring) (s : store) : jsstring * store :=
  if negb (initialized s) then (js "", setError NOT_INITIALIZED s)
  else (orElse (data s !! element) (js ""), setError NO_ERROR s).

Definition readOnlyElements : list jsstring :=
  [ js "cmi.core.student_id";
    js "cmi.core.student_name";
    js "cmi.core.credit";
    js "cmi.core.entry";
    js "cmi.core.lesson_mode";
    js "cmi.core.total_time";
    js "cmi.launch_data";
    js "cmi.comments_from_lms" ].

(** [array.includes(x)] on strings. *)
Definition includes (l : list jsstring) (x : jsstring) : bool := bool_decide (x ∈ l).

(** The score pattern: [^], [-?], [\d] starred, [\.?], [\d] starred, [$]. *)
Definition scorePattern : regex :=
  seqs [Bol; opt (lit "-"); star digit; opt (lit "."); star digit; Eol].

(** The time pattern [/^\d{2,4}:\d{2}:\d{2}(\.\d{1,2})?$/]. *)
Definition timePattern : regex :=
  seqs [Bol; Quant 2 (Some 4) digit; lit ":"; Quant 2 (Some 2) digit; lit ":";
        Quant 2 (Some 2) digit; opt (Seq (lit ".") (Quant 1 (Some 2) digit)); Eol].

Definition validateSCORMElement (element value : jsstring) : bool :=
  if 4096 <? length value then false
  else if bool_decide (element = js "cmi.core.lesson_status") then
    includes [js "passed"; js "completed"; js "failed"; js "incomplete";
              js "browsed"; js "not attempted"] value
  else if bool_decide (element = js "cmi.core.exit") then
    includes [js "time-out"; js "suspend"; js "logout"; js "normal"; js ""] value
  else if includes [js "cmi.core.score.raw"; js "cmi.core.score.max";
                    js "cmi.core.score.min"] element then
    test scorePattern value && (length value <=? 10)
  else if includes [js "cmi.core.session_time"; js "cmi.core.total_time"] element then
    test timePattern value
  else true.

(** The script-block pattern of [sanitizeValue], flags [gi]; its terms in
    order: [<script], [\b], [[^<]] starred, a starred group made of the
    negative lookahead [(?!<\/script>)], [<] and [[^<]] starred, and
    [<\/script>]. *)
Definition scriptBlock : regex :=
  seqs [litI "<script"; WordBoundary; star (noneOf "<");
        star (seqs [NegLook (litI "</script>"); lit "<"; star (noneOf "<")]);
        litI "</script>"].

(** [/javascript:/gi] *)
Definition scriptUri : regex := litI "javascript:".

(** The handler pattern, flags [gi]: [on], [\w+], [\s] starred, [=]. *)
Definition eventHandler : regex :=
  seqs [litI "on"; plus word; star space; lit "="].

Definition sanitizeValue (value : jsstring) : jsstring :=
  substring0 4096
    (trim
      (replaceAll eventHandler (js "")
        (replaceAll scriptUri (js "")
          (replaceAll scriptBlock (js "") value)))).

Definition setValue (element value : jsstring) (s : store) : bool * store :=
  if negb (initialized s) then (false, setError NOT_INITIALIZED s)
  else if includes readOnlyElements element then (false, setError READ_ONLY s)
  else if negb (validateSCORMElement element value) then (false, setError INVALID_DATA s)
  else (true, {| data := <[element := sanitizeValue value]> (data s);
                 initialized := initialized s;
                 errorCode := NO_ERROR |}).

Definition commit (s : store) : bool * store :=
  if negb (initialized s) then (false, setError NOT_INITIALIZED s)
  else (true, setError NO_ERROR s).

Definition getLastError (s : store) : jsstring := errorCode s.

Definition errorMessages : list (jsstring * jsstring) :=
  [ (js "0", js "No error");
    (js "101", js "General exception");
    (js "112", js "LMS not initialized");
    (js "403", js "Element is read only");
    (js "404", js "Element not found");
    (js "405", js "Invalid data") ].

Definition getErrorString (code : jsstring) : jsstring :=
  orElse ((list_to_map errorMessages : gmap jsstring jsstring) !! code)
         (js "Unknown error").

(** The calls a content object can make, and a run of them. *)
Inductive call : Type :=
| Initialize
| Terminate
| GetValue (element : jsstring)
| SetValue (element value : jsstring)
| Commit.

Definition perform (c : call) (s : store) : store :=
  match c with
  | Initialize => (initialize s).2
  | Terminate => (terminate s).2
  | GetValue e => (getValue e s).2
  | SetValue e v => (setValue e v s).2
  | Commit => (commit s).2
  end.

Definition run (cs : list call) (s : store) : store := foldl (fun st c => perform c st) s cs.


(** A store as a content object first meets it: constructed without a
    user id, then initialized. *)
Definition activeStore : store := (initialize (construct None None)).2.

(** The wording of the specification for the score elements: an optional
    leading [-], digits, an optional single [.], digits. *)
Definition signedDecimal (v : jsstring) : Prop :=
  ∃ sign int dot frac : jsstring,
    v = sign ++ int ++ dot ++ frac ∧
    (sign = [] ∨ sign = js "-") ∧
    Forall (fun c => isDigit c = true) int ∧
    (dot = [] ∨ dot = js ".") ∧
    Forall (fun c => isDigit c = true) frac.

(** A value carries a script-bearing sequence when one of the three
    patterns of the sanitizer matches somewhere in it. *)
Definition scriptBearing (v : jsstring) : bool :=
  test scriptBlock v || test scriptUri v || test eventHandler v.

(** *** The rest of the class and of [createSCORMAPI] *)

(** [getAll()] returns a copy of the dictionary. *)
Definition getAll (s : store) : gmap jsstring jsstring := data s.


(** [b ? "true" : "false"] *)
Definition boolString (b : bool) : jsstring := if b then js "true" else js "false".

(** The SCORM 1.2 object built by [createSCORMAPI]; every method ignores
    its [param]. *)
Definition LMSInitialize (param : jsstring) (s : store) : jsstring * store :=
  (boolString (initialize s).1, (initialize s).2).

Definition LMSFinish (param : jsstring) (s : store) : jsstring * store :=
  let committed := (commit s).2 in
  (boolString (terminate committed).1, (terminate committed).2).

Definition LMSGetValue (element : jsstring) (s : store) : jsstring * store :=
  getValue element s.

Definition LMSSetValue (element value : jsstring) (s : store) : jsstring * store :=
  (boolString (setValue element value s).1, (setValue element value s).2).

Definition LMSCommit (param : jsstring) (s : store) : jsstring * store :=
  (boolString (commit s).1, (commit s).2).

Definition LMSGetLastError (s : store) : jsstring := getLastError s.

Definition LMSGetErrorString (code : jsstring) : jsstring := getErrorString code.

Definition LMSGetDiagnostic (code : jsstring) : jsstring := js "".

(** The SCORM 2004 object forwards each method to the 1.2 object. *)
Definition Initialize2004 := LMSInitialize.
Definition Terminate2004 := LMSFinish.
Definition GetValue2004 := LMSGetValue.
Definition SetValue2004 := LMSSetValue.
Definition Commit2004 := LMSCommit.
Definition GetLastError2004 := LMSGetLastError.
Definition GetErrorString2004 := LMSGetErrorString.
Definition GetDiagnostic2004 := LMSGetDiagnostic.

(** The codes the class assigns to [errorCode]. *)
Definition assignedCodes : list jsstring :=
  [js "0"; js "101"; js "112"; js "403"; js "405"].

(** The elements [validateSCORMElement] has a rule for and that can be
    written ([cmi.core.total_time] is read-only). *)
Definition typedElements : list jsstring :=
  [js "cmi.core.lesson_status"; js "cmi.core.exit"; js "cmi.core.score.raw";
   js "cmi.core.score.max"; js "cmi.core.score.min"; js "cmi.core.session_time"].


Definition digits (w : jsstring) : Prop := Forall (fun c => isDigit c = true) w.

(** The shape of a time value: 2 to 4 digits, [:], 2 digits, [:], 2 digits,
    then nothing or [.] and 1 or 2 digits. *)
Definition timeValue (v : jsstring) : Prop :=
  exists h mi se fr : jsstring,
    v = h ++ js ":" ++ mi ++ js ":" ++ se ++ fr /\
    digits h /\ 2 <= length h <= 4 /\
    digits mi /\ length mi = 2 /\
    digits se /\ length se = 2 /\
    (fr = [] \/ exists d, fr = js "." ++ d /\ digits d /\ 1 <= length d <= 2).

(** Every stored value is at most 4096 code units long. *)
Definition bounded (s : store) : Prop :=
  forall e v, data s !! e = Some v -> length v <= 4096.

End DataStore.

(** ** The manifest tree and its play-list ([SCORMManifestParser]) *)

Module Manifest.

(** [SCORMItem]; the optional metadata fields that no function below reads
    (prerequisites, time limits, mastery score, parameters) are left out. *)
#[local] Unset Elimination Schemes.
Inductive SCORMItem : Type :=
  Item {
    identifier : jsstring;
    title : jsstring;
    href : option jsstring;
    isVisible : bool;
    children : list SCORMItem
  }.
#[local] Set Elimination Schemes.

Record SCORMOrganization : Type := Organization {
  orgIdentifier : jsstring;
  orgTitle : jsstring;
  items : list SCORMItem
}.

Record SCORMResource : Type := Resource {
  resIdentifier : jsstring;
  resType : jsstring;
  resHref : jsstring;
  resFiles : list jsstring
}.

Record SCORMManifest : Type := ManifestOf {
  manifestIdentifier : jsstring;
  version : jsstring;
  organizations : list SCORMOrganization;
  resources : list SCORMResource;
  defaultOrganization : jsstring
}.

(** The test [item.href && item.isVisible]. *)
Definition playable (item : SCORMItem) : bool := truthy (href item) && isVisible item.

(** The callback of [items.forEach] inside [extractPlayableItems], with the
    array [playableItems] it pushes to passed along. *)
Fixpoint visitItem (playableItems : list SCORMItem) (item : SCORMItem) : list SCORMItem :=
  let pushed := if playable item then playableItems ++ [item] else playableItems in
  if 0 <? length (children item) then fold_left visitItem (children item) pushed
  else pushed.

Definition extractPlayableItems (playableItems : list SCORMItem) (l : list SCORMItem)
  : list SCORMItem :=
  fold_left visitItem l playableItems.

Definition getPlayableItems (manifest : SCORMManifest) : list SCORMItem :=
  fold_left (fun acc org => extractPlayableItems acc (items org)) (organizations manifest) [].

(** The course of the specification's example: [A, B[C, D], E] with [B]
    invisible. *)
Definition leaf (n f : string) : SCORMItem :=
  {| identifier := js n; title := js n; href := Some (js f); isVisible := true;
     children := [] |}.

Definition itemA : SCORMItem := leaf "A" "a.html".
Definition itemC : SCORMItem := leaf "C" "c.html".
Definition itemD : SCORMItem := leaf "D" "d.html".
Definition itemE : SCORMItem := leaf "E" "e.html".
Definition itemB : SCORMItem :=
  {| identifier := js "B"; title := js "B"; href := Some (js "b.html");
     isVisible := false; children := [itemC; itemD] |}.

Definition exampleOrganization : SCORMOrganization :=
  {| orgIdentifier := js "ORG"; orgTitle := js "Course";
     items := [itemA; itemB; itemE] |}.

Definition exampleManifest : SCORMManifest :=
  {| manifestIdentifier := js "M"; version := js "1.0";
     organizations := [exampleOrganization]; resources := [];
     defaultOrganization := js "ORG" |}.

(** Pre-order listing of a tree and of a forest. *)
Fixpoint preorder (item : SCORMItem) : list SCORMItem :=
  item :: flat_map preorder (children item).

Definition preorderAll (manifest : SCORMManifest) : list SCORMItem :=
  flat_map preorder (flat_map items (organizations manifest)).

(** *** Resolution of item references *)

(** The [Map] from resource identifiers to resources: with [set], a later
    resource replaces an earlier one of the same identifier. *)
Definition resourceMap (rs : list SCORMResource) : gmap jsstring SCORMResource :=
  foldl (fun acc r => <[resIdentifier r := r]> acc) ∅ rs.

(** The callback of [items.map] inside [resolveItems]: the reference is
    replaced when it is truthy and names a resource. *)
Fixpoint resolveItem (rm : gmap jsstring SCORMResource) (item : SCORMItem) : SCORMItem :=
  let resolvedHref :=
    match href item with
    | Some h =>
      if truthy (href item) then
        match rm !! h with
        | Some resource => Some (resHref resource)
        | None => href item
        end
      else href item
    | None => href item
    end in
  {| identifier := identifier item;
     title := title item;
     href := resolvedHref;
     isVisible := isVisible item;
     children := List.map (resolveItem rm) (children item) |}.

Definition resolveItems (rm : gmap jsstring SCORMResource) (l : list SCORMItem)
  : list SCORMItem :=
  List.map (resolveItem rm) l.

Definition resolveItemResources (manifest : SCORMManifest) : SCORMManifest :=
  let rm := resourceMap (resources manifest) in
  {| manifestIdentifier := manifestIdentifier manifest;
     version := version manifest;
     organizations :=
       List.map (fun org => {| orgIdentifier := orgIdentifier org;
                               orgTitle := orgTitle org;
                               items := resolveItems rm (items org) |})
                (organizations manifest);
     resources := resources manifest;
     defaultOrganization := defaultOrganization manifest |}.

(** A manifest whose item references name resources, two of which share an
    identifier and one of which has no entry href. *)
Definition referencingManifest : SCORMManifest :=
  {| manifestIdentifier := js "M"; version := js "1.0";
     organizations :=
       [ {| orgIdentifier := js "ORG"; orgTitle := js "Course";
            items := [ {| identifier := js "I1"; title := js "One";
                          href := Some (js "R1"); isVisible := true; children := [] |};
                       {| identifier := js "I2"; title := js "Two";
                          href := Some (js "R2"); isVisible := true; children := [] |};
                       {| identifier := js "I3"; title := js "Three";
                          href := Some (js "page.html"); isVisible := true;
                          children := [] |} ] |} ];
     resources :=
       [ {| resIdentifier := js "R1"; resType := js "webcontent";
            resHref := js "old.html"; resFiles := [] |};
         {| resIdentifier := js "R2"; resType := js "webcontent";
            resHref := js ""; resFiles := [] |};
         {| resIdentifier := js "R1"; resType := js "webcontent";
            resHref := js "new.html"; resFiles := [] |} ];
     defaultOrganization := js "ORG" |}.

End Manifest.

Import Manifest.

(** ** The package store ([SCORMPackageManager]) *)

Module PackageStore.

(** The payload of a member file; its bytes play no role here. *)
Definition Blob : Type := list N.

(** [SCORMPackage] *)
Record SCORMPackage : Type := Package {
  id : jsstring;
  name : jsstring;
  uploadDate : jsstring;
  manifest : SCORMManifest;
  files : gmap jsstring Blob;
  size : N
}.

(** The metadata object written to either tier: a package without its
    files, the date in ISO form. *)
Record PackageData : Type := PackageDataOf {
  dataId : jsstring;
  dataName : jsstring;
  dataUploadDate : jsstring;
  dataManifest : SCORMManifest;
  dataSize : N
}.

Record FileRecord : Type := FileRecordOf {
  packageId : jsstring;
  path : jsstring;
  blob : Blob
}.

(** The object stores of the IndexedDB database [SCORMPackages]:
    [packages] is keyed by [id]; [files] has auto-incremented keys. *)
Record Database : Type := DatabaseOf {
  packages : gmap jsstring PackageData;
  fileRows : list FileRecord
}.

(** The primary tier as the program meets it: the database cannot be
    opened, or it opens and its requests fail, or it works. *)
Inductive Primary : Type :=
| Unavailable
| Failing (db : Database)
| Working (db : Database).

(** Both tiers: the primary one and the array kept in [localStorage] under
    the key [scorm_packages] (absent key: the empty array). *)
Record Storage : Type := StorageOf {
  indexedDB : Primary;
  localStorage : list PackageData
}.

Definition metadata (p : SCORMPackage) : PackageData :=
  {| dataId := id p; dataName := name p; dataUploadDate := uploadDate p;
     dataManifest := manifest p; dataSize := size p |}.

(** The object both read paths build from a stored record:
    [{...pkg, uploadDate: new Date(pkg.uploadDate), files: new Map()}]. *)
Definition revive (d : PackageData) : SCORMPackage :=
  {| id := dataId d; name := dataName d; uploadDate := dataUploadDate d;
     manifest := dataManifest d; files := ∅; size := dataSize d |}.

Definition getStoredPackageList (st : Storage) : list PackageData := localStorage st.

(** [storePackage]: one transaction on the primary tier; whatever is thrown
    there is caught and the metadata alone is pushed to [localStorage]. *)
Definition storePackage (p : SCORMPackage) (st : Storage) : Storage :=
  match indexedDB st with
  | Working db =>
    {| indexedDB :=
         Working {| packages := <[id p := metadata p]> (packages db);
                    fileRows := fileRows db ++
                      List.map (fun '(f, b) => {| packageId := id p; path := f; blob := b |})
                               (map_to_list (files p)) |};
       localStorage := localStorage st |}
  | _ =>
    {| indexedDB := indexedDB st;
       localStorage := getStoredPackageList st ++ [metadata p] |}
  end.

(** What awaiting a returned promise gives. *)
Inductive Outcome (A : Type) : Type :=
| Resolved (a : A)
| Rejected.
Arguments Resolved {A} a.
Arguments Rejected {A}.

(** [getPackageById]: the [catch] branch is reached only when opening the
    database (or the transaction) throws; a request that succeeds with no
    record resolves to [null], and a failing request rejects the returned
    promise outside the [try]. *)
Definition getPackageById (packageId : jsstring) (st : Storage)
  : Outcome (option SCORMPackage) :=
  match indexedDB st with
  | Working db =>
    match packages db !! packageId with
    | Some d => Resolved (Some (revive d))
    | None => Resolved None
    end
  | Failing _ => Rejected
  | Unavailable =>
    match List.find (fun d => bool_decide (dataId d = packageId)) (getStoredPackageList st) with
    | Some d => Resolved (Some (revive d))
    | None => Resolved None
    end
  end.

(** A package and two storages used as examples: one whose primary tier
    fails during the write, and the same storage with the primary tier
    working again. *)
Definition emptyDatabase : Database := {| packages := ∅; fileRows := [] |}.

Definition examplePackage : SCORMPackage :=
  {| id := js "scorm_1_abc"; name := js "course"; uploadDate := js "2024-01-01T00:00:00.000Z";
     manifest := exampleManifest; files := {[ js "a.html" := js "<html></html>" ]};
     size := 2048 |}.

Definition degradedWrite : Storage :=
  storePackage examplePackage {| indexedDB := Failing emptyDatabase; localStorage := [] |}.

Definition recovered (st : Storage) : Storage :=
  {| indexedDB := Working emptyDatabase; localStorage := localStorage st |}.

Definition unavailable (st : Storage) : Storage :=
  {| indexedDB := Unavailable; localStorage := localStorage st |}.

(** *** Upload *)

Definition MAX_PACKAGE_SIZE : N := (100 * 1024 * 1024)%N.

(** A [File] handed to [uploadPackage]. *)
Record File : Type := FileOf {
  fileName : jsstring;
  fileSize : N;
  fileBytes : list N
}.

(** An entry of a loaded archive. *)
Record ZipEntry : Type := ZipEntryOf {
  entryName : jsstring;
  dir : bool;
  content : list N
}.

(** What the function does that can be observed from outside, in order. *)
Inductive Event : Type :=
| Progress (stage : jsstring) (progress : nat)
| LoadArchive
| ReadManifestEntry
| ParseManifest
| ExtractEntry (entry : jsstring)
| StoreWrite.

Definition isExtraction (e : Event) : bool :=
  match e with
  | LoadArchive | ReadManifestEntry | ExtractEntry _ => true
  | _ => false
  end.

Definition isStoreWrite (e : Event) : bool :=
  match e with
  | StoreWrite => true
  | _ => false
  end.

(** The collaborators outside this repository: JSZip, the DOM parser behind
    [SCORMManifestParser.parseFromXML], DOMPurify, the clock and the random
    source behind [generatePackageId]. *)
Record Env : Type := EnvOf {
  loadAsync : list N -> option (list ZipEntry);
  parseFromXML : list N -> option SCORMManifest;
  sanitizeName : jsstring -> jsstring;
  generatePackageId : jsstring;
  now : jsstring
}.

(** [zip.file(name)]: the entry of that exact name that is not a folder. *)
Definition zipFile (entries : list ZipEntry) (n : jsstring) : option ZipEntry :=
  List.find (fun e => bool_decide (entryName e = n) && negb (dir e)) entries.

(** [s.replace(".zip", "")]: the first occurrence is removed. *)
Fixpoint removeFirst (t s : jsstring) : jsstring :=
  match s with
  | [] => []
  | c :: s' =>
    if bool_decide (take (length t) s = t) then drop (length t) s
    else c :: removeFirst t s'
  end.

Inductive Result (A : Type) : Type :=
| Returned (a : A)
| Thrown (message : jsstring).
Arguments Returned {A} a.
Arguments Thrown {A} message.

(** [uploadPackage(file, onProgress)] with a progress callback given: the
    events it produces, its result and the storage it leaves.  An error
    thrown by a collaborator has the message the collaborator chose,
    written [js "<collaborator>"] here. *)
Definition uploadPackage (env : Env) (file : File) (st : Storage)
  : list Event * Result SCORMPackage * Storage :=
  if negb (endsWith (toLowerCase (fileName file)) (js ".zip")) then
    ([], Thrown (js "SCORM packages must be ZIP files"), st)
  else if (MAX_PACKAGE_SIZE <? fileSize file)%N then
    ([], Thrown (js "Package size exceeds 100MB limit"), st)
  else
    let t1 := [Progress (js "uploading") 0; Progress (js "extracting") 20; LoadArchive] in
    match loadAsync env (fileBytes file) with
    | None => (t1, Thrown (js "<JSZip>"), st)
    | Some zipContents =>
      let t2 := t1 ++ [Progress (js "parsing") 40] in
      match zipFile zipContents (js "imsmanifest.xml") with
      | None => (t2, Thrown (js "Invalid SCORM package: imsmanifest.xml not found"), st)
      | Some manifestFile =>
        let t3 := t2 ++ [ReadManifestEntry; ParseManifest] in
        match parseFromXML env (content manifestFile) with
        | None => (t3, Thrown (js "<parseFromXML>"), st)
        | Some mf =>
          if length (organizations mf) =? 0 then
            (t3, Thrown (js "Invalid SCORM manifest: No organizations found"), st)
          else
            let entries := List.filter (fun e => negb (dir e)) zipContents in
            let t4 := t3 ++ [Progress (js "storing") 60]
                         ++ List.map (fun e => ExtractEntry (entryName e)) entries in
            let scormPackage :=
              {| id := generatePackageId env;
                 name := sanitizeName env (removeFirst (js ".zip") (fileName file));
                 uploadDate := now env;
                 manifest := mf;
                 files := foldl (fun fs e => <[entryName e := content e]> fs) ∅ entries;
                 size := fileSize file |} in
            (t4 ++ [Progress (js "storing") 80; StoreWrite; Progress (js "complete") 100],
             Returned scormPackage,
             storePackage scormPackage st)
        end
      end
    end.

(** Collaborators and files used as examples. *)
Definition exampleEnv (entries : list ZipEntry) (mf : SCORMManifest) : Env :=
  {| loadAsync := fun _ => Some entries;
     parseFromXML := fun _ => Some mf;
     sanitizeName := fun n => n;
     generatePackageId := js "scorm_1_abc";
     now := js "2024-01-01T00:00:00.000Z" |}.

Definition emptyStorage : Storage :=
  {| indexedDB := Working emptyDatabase; localStorage := [] |}.

Definition noOrganizations : SCORMManifest :=
  {| manifestIdentifier := js "M"; version := js "1.0"; organizations := [];
     resources := []; defaultOrganization := js "" |}.

Definition manifestEntry : ZipEntry :=
  {| entryName := js "imsmanifest.xml"; dir := false; content := js "<manifest/>" |}.

Definition pageEntry : ZipEntry :=
  {| entryName := js "a.html"; dir := false; content := js "<html></html>" |}.

Definition textFile : File :=
  {| fileName := js "notes.txt"; fileSize := 10; fileBytes := [] |}.

Definition hugeFile : File :=
  {| fileName := js "Course.ZIP"; fileSize := (200 * 1024 * 1024)%N; fileBytes := [] |}.

Definition zipUpload : File :=
  {| fileName := js "course.zip"; fileSize := 2048; fileBytes := [] |}.

Definition nestedManifestEntry : ZipEntry :=
  {| entryName := js "course/imsmanifest.xml"; dir := false; content := js "<manifest/>" |}.

(** *** Files, listing and deletion *)

(** Keys of IndexedDB: here a string or an array of keys.  Keys of
    different kinds are never equal. *)
#[local] Unset Elimination Schemes.
Inductive Key : Type :=
| KString (s : jsstring)
| KArray (ks : list Key).
#[local] Set Elimination Schemes.

Fixpoint keyEqb (a b : Key) : bool :=
  match a, b with
  | KString s, KString t => bool_decide (s = t)
  | KArray ks, KArray ls =>
    (fix all2 (ks ls : list Key) : bool :=
       match ks, ls with
       | [], [] => true
       | k :: ks', l :: ls' => keyEqb k l && all2 ks' ls'
       | _, _ => false
       end) ks ls
  | _, _ => false
  end.

(** The two indexes [openDatabase] creates on the files store: [packageId]
    on the key path "packageId", and [packagePath] on the key path
    ["packageId", "path"]. *)
Definition packageIdIndex (r : FileRecord) : Key := KString (packageId r).

Definition packagePathIndex (r : FileRecord) : Key :=
  KArray [KString (packageId r); KString (path r)].

(** [index.get(key)]: the first record whose index key is [key]. *)
Definition indexGet (index : FileRecord -> Key) (key : Key) (rows : list FileRecord)
  : option FileRecord :=
  List.find (fun r => keyEqb (index r) key) rows.

(** [index.getAll(key)]: every such record. *)
Definition indexGetAll (index : FileRecord -> Key) (key : Key) (rows : list FileRecord)
  : list FileRecord :=
  List.filter (fun r => keyEqb (index r) key) rows.

(** [getPackageFile]: the query goes to the index named [packageId] with
    the array [[packageId, filePath]] as key. *)
Definition getPackageFile (pid filePath : jsstring) (st : Storage) : Outcome (option Blob) :=
  match indexedDB st with
  | Working db =>
    Resolved (blob <$> indexGet packageIdIndex
                         (KArray [KString pid; KString filePath]) (fileRows db))
  | Failing _ => Rejected
  | Unavailable => Resolved None
  end.

(** [deletePackage]: in one transaction the package record is deleted and
    then every file row that [getAll(packageId)] returns; whatever is
    thrown on the way is caught and the catalog in [localStorage] is
    filtered instead. *)
Definition deletePackage (pid : jsstring) (st : Storage) : Storage :=
  match indexedDB st with
  | Working db =>
    {| indexedDB :=
         Working {| packages := delete pid (packages db);
                    fileRows := List.filter
                                  (fun r => negb (keyEqb (packageIdIndex r) (KString pid)))
                                  (fileRows db) |};
       localStorage := localStorage st |}
  | _ =>
    {| indexedDB := indexedDB st;
       localStorage := List.filter (fun pkg => negb (bool_decide (dataId pkg = pid)))
                                   (getStoredPackageList st) |}
  end.

(** The order of string keys: by code units, a prefix first. *)
Fixpoint keyLeb (a b : jsstring) : bool :=
  match a, b with
  | [], _ => true
  | _ :: _, [] => false
  | x :: a', y :: b' =>
    if (x <? y)%N then true else if (y <? x)%N then false else keyLeb a' b'
  end.

Definition keyOrder (p q : jsstring * PackageData) : Prop := keyLeb p.1 q.1 = true.

#[global] Instance keyOrder_dec : RelDecision keyOrder.
Proof. intros p q. unfold keyOrder. apply _. Defined.

(** [getStoredPackages]: [getAll()] on the packages store gives the records
    in the order of their keys; each is revived without files. *)
Definition getStoredPackages (st : Storage) : Outcome (list SCORMPackage) :=
  match indexedDB st with
  | Working db =>
    Resolved (List.map (fun kd => revive kd.2)
                       (merge_sort keyOrder (map_to_list (packages db))))
  | Failing _ => Rejected
  | Unavailable => Resolved (List.map revive (getStoredPackageList st))
  end.

(** The file rows [storePackage] writes for a package. *)
Definition rowsOf (p : SCORMPackage) : list FileRecord :=
  List.map (fun '(f, b) => {| packageId := id p; path := f; blob := b |})
           (map_to_list (files p)).

End PackageStore.

(** ** API discovery ([findAPI]) *)

Module Bridge.

Section Discovery.

(** The API objects published on a window. *)
Context {Api : Type}.

(** The two well-known global bindings of a context; [None] is an absent
    (or otherwise falsy) binding. *)
Record Bindings : Type := BindingsOf {
  API : option Api;
  API_1484_11 : option Api
}.

(** A window and the chain of its parents.  The top of a chain has itself
    as parent, or none ([selfParent = false]). *)
Inductive Window : Type :=
| Top (b : Bindings) (selfParent : bool)
| Frame (b : Bindings) (parent : Window).

Definition bindings (w : Window) : Bindings :=
  match w with
  | Top b _ => b
  | Frame b _ => b
  end.

(** [win.API || win.API_1484_11] *)
Definition published (b : Bindings) : option Api :=
  match API b with
  | Some a => Some a
  | None => API_1484_11 b
  end.

Definition hasApi (b : Bindings) : bool :=
  match published b with
  | Some _ => true
  | None => false
  end.

(** The loop of the [findAPI] installed by [injectSCORMAPI], from the
    state [(win, attempts)] to the state it ends in. *)
Fixpoint findLoop (win : Window) (attempts : nat) : Window * nat :=
  match win with
  | Frame b parent =>
    if negb (hasApi b) && (attempts <? 500) then
      if hasApi (bindings parent) then (parent, S attempts)
      else findLoop parent (S attempts)
    else (win, attempts)
  | Top _ _ => (win, attempts)
  end.

Definition findAPI (win : Window) : option Api :=
  published (bindings (findLoop win 0).1).

(** The loop of the [findAPI] that [loadSCO] writes into a hosted HTML
    document: the same loop without the early [break]. *)
Fixpoint bootstrapLoop (win : Window) (attempts : nat) : Window * nat :=
  match win with
  | Frame b parent =>
    if negb (hasApi b) && (attempts <? 500) then bootstrapLoop parent (S attempts)
    else (win, attempts)
  | Top _ _ => (win, attempts)
  end.

Definition bootstrapFindAPI (win : Window) : option Api :=
  published (bindings (bootstrapLoop win 0).1).

(** The contexts of a chain, the starting one first. *)
Fixpoint chain (win : Window) : list Bindings :=
  match win with
  | Top b _ => [b]
  | Frame b parent => b :: chain parent
  end.

(** The first binding published among the given contexts. *)
Fixpoint firstPublished (l : list Bindings) : option Api :=
  match l with
  | [] => None
  | b :: l' =>
    match published b with
    | Some a => Some a
    | None => firstPublished l'
    end
  end.

End Discovery.

Arguments Bindings Api : clear implicits.
Arguments Window Api : clear implicits.

(** Example contexts; the API objects are numbered. *)
Definition noBindings : Bindings nat := {| API := None; API_1484_11 := None |}.
Definition legacyOnly (a : nat) : Bindings nat := {| API := Some a; API_1484_11 := None |}.
Definition currentOnly (a : nat) : Bindings nat := {| API := None; API_1484_11 := Some a |}.

End Bridge.

(** ** The player ([SCORMPlayer.tsx]) *)

Module Player.
Import PackageStore.

(** *** Locating the content of an item *)

(** [s.replace(t, r)] for strings: the first occurrence of [t] is
    replaced. *)
Fixpoint replaceFirst (t r s : jsstring) : jsstring :=
  match s with
  | [] => if bool_decide (t = []) then r else []
  | c :: s' =>
    if bool_decide (take (length t) s = t) then r ++ drop (length t) s
    else c :: replaceFirst t r s'
  end.

(** [/^\/+/] *)
Definition leadingSlashes : regex := seqs [Bol; plus (lit "/")].

(** The candidates [loadSCO] tries for an href, in order.  [lower] stands
    for [String.prototype.toLowerCase]. *)
Definition possiblePaths (lower : jsstring -> jsstring) (href : jsstring) : list jsstring :=
  [ href;
    replaceFirstMatch leadingSlashes (js "") href;
    js "/" ++ href;
    lower href;
    replaceFirst (js ".html") (js ".htm") href;
    replaceFirst (js ".htm") (js ".html") href ].

(** The loop over the candidates: each is awaited from [getPackageFile];
    the first payload ends the loop. *)
Fixpoint firstHit (pid : jsstring) (paths : list jsstring) (st : Storage)
  : Outcome (option (jsstring * Blob)) :=
  match paths with
  | [] => Resolved None
  | filePath :: rest =>
    match getPackageFile pid filePath st with
    | Rejected => Rejected
    | Resolved (Some b) => Resolved (Some (filePath, b))
    | Resolved None => firstHit pid rest st
    end
  end.

(** The part of [loadSCO] that fetches the content of an item of an
    uploaded package: the path found and its payload, or the error thrown.
    A rejected request throws the error of the storage, written
    [js "<IndexedDB>"] here. *)
Definition locateContent (lower : jsstring -> jsstring) (pid href : jsstring) (st : Storage)
  : Result (jsstring * Blob) :=
  match firstHit pid (possiblePaths lower href) st with
  | Resolved (Some hit) => Returned hit
  | Resolved None =>
    Thrown (js "Content file " ++ href ++ js " not found in package.")
  | Rejected => Thrown (js "<IndexedDB>")
  end.

(** *** The session clock *)

(** The decimal digits of a natural number, the most significant first. *)
Fixpoint digitsFrom (fuel : nat) (n : N) (acc : jsstring) : jsstring :=
  match fuel with
  | 0 => acc
  | S f =>
    let acc' := (48 + n mod 10)%N :: acc in
    if (n / 10 =? 0)%N then acc' else digitsFrom f (n / 10) acc'
  end.

(** [n.toString()] for a non-negative integer; a number has at most as
    many decimal digits as binary ones. *)
Definition numberToString (n : N) : jsstring :=
  digitsFrom (S (N.to_nat (N.log2 n))) n [].

(** [s.padStart(2, '0')] *)
Definition padStart2 (s : jsstring) : jsstring :=
  replicate (2 - length s) 48%N ++ s.

(** [formatTime(seconds)], for the whole number of seconds the session
    timer counts. *)
Definition formatTime (seconds : N) : jsstring :=
  let hours := (seconds / 3600)%N in
  let minutes := ((seconds mod 3600) / 60)%N in
  let secs := (seconds mod 60)%N in
  padStart2 (numberToString hours) ++ js ":" ++ padStart2 (numberToString minutes)
    ++ js ":" ++ padStart2 (numberToString secs).

(** [updateSessionTime] of the demo content, [elapsed] seconds after its
    start: the same clock string, written through the API object. *)
Definition updateSessionTime (elapsed : N) (s : DataStore.store) : jsstring * DataStore.store :=
  DataStore.LMSSetValue (js "cmi.core.session_time") (formatTime elapsed) s.


End Player.

(** * Properties *)

(** ** The matcher against the declarative meaning of patterns *)

Module RegexFacts.

Lemma advances_refl (x : pos) : advances x x [].
Proof. by split. Qed.

Lemma advances_trans (x y z : pos) (w1 w2 : list N) :
  advances x y w1 -> advances y z w2 -> advances x z (w1 ++ w2).
Proof.
  intros [H1 H2] [H3 H4]. split.
  - by rewrite H1, H3, app_assoc.
  - by rewrite H4, H2, reverse_app, app_assoc.
Qed.

Lemma advances_length (x y : pos) (w : list N) :
  advances x y w -> length x.2 = length w + length y.2.
Proof. intros [H _]. by rewrite H, length_app. Qed.

Lemma reps_advances (R : pos -> pos -> Prop) :
  (forall x y, R x y -> exists w, advances x y w) ->
  forall lo hi x y, reps R lo hi x y -> exists w, advances x y w.
Proof.
  intros HR lo hi x y H.
  induction H as [lo x|hi x|lo hi x y z _ Hxy _ [w2 IH]|hi x y z _ Hxy _ _ [w2 IH]].
  - exists []. apply advances_refl.
  - exists []. apply advances_refl.
  - destruct (HR _ _ Hxy) as [w1 H1]. exists (w1 ++ w2). by eapply advances_trans.
  - destruct (HR _ _ Hxy) as [w1 H1]. exists (w1 ++ w2). by eapply advances_trans.
Qed.

(** A match never moves backwards: its end is its start moved over the
    matched code units. *)
Lemma matches_advances (r : regex) :
  forall x y, matches r x y -> exists w, advances x y w.
Proof.
  induction r as [|p|r1 IH1 r2 IH2|lo hi r IH|r IH| | |]; simpl; intros x y H.
  - subst. exists []. apply advances_refl.
  - destruct H as (c & rest & Hx & _ & ->). exists [c]. by split.
  - destruct H as (z & H1 & H2).
    destruct (IH1 _ _ H1) as [w1 A1]. destruct (IH2 _ _ H2) as [w2 A2].
    exists (w1 ++ w2). by eapply advances_trans.
  - by eapply reps_advances.
  - destruct H as [-> _]. exists []. apply advances_refl.
  - destruct H as [-> _]. exists []. apply advances_refl.
  - destruct H as [-> _]. exists []. apply advances_refl.
  - destruct H as [-> _]. exists []. apply advances_refl.
Qed.

Lemma matches_length (r : regex) (x y : pos) :
  matches r x y -> length y.2 <= length x.2.
Proof.
  intros H. destruct (matches_advances _ _ _ H) as [w Hw].
  apply advances_length in Hw. lia.
Qed.

Section Repeat.
Context {A : Type} (mr : pos -> (pos -> option A) -> option A).
Context (R : pos -> pos -> Prop).

Hypothesis mr_sound :
  forall x k a, mr x k = Some a -> exists y, R x y /\ k y = Some a.
Hypothesis mr_complete :
  forall x k, mr x k = None -> forall y, R x y -> k y = None.
Hypothesis R_length : forall x y, R x y -> length y.2 <= length x.2.

Lemma more_sound k fuel : forall hi x a,
  more mr k fuel hi x = Some a -> exists y, reps R 0 hi x y /\ k y = Some a.
Proof using mr_sound.
  induction fuel as [|f IH]; intros hi x a H.
  - exists x. split; [apply reps_done|]. by destruct hi as [[|n]|].
  - assert (Hgen : hi = Some 0 /\ k x = Some a \/
            hi <> Some 0 /\
            match mr x (fun y => if length y.2 =? length x.2 then None
                                 else more mr k f (pred <$> hi) y) with
            | Some a' => Some a'
            | None => k x
            end = Some a).
    { destruct hi as [[|n]|]; simpl in H; [left|right|right]; by split. }
    destruct Hgen as [[-> Hk]|[Hhi Hm]].
    + exists x. split; [apply reps_full | done].
    + destruct (mr x _) as [a'|] eqn:E.
      * inversion Hm; subst a'.
        apply mr_sound in E as (y & Hxy & Hy).
        destruct (length y.2 =? length x.2) eqn:El; [done|].
        apply Nat.eqb_neq in El.
        apply IH in Hy as (z & Hz & Hk).
        exists z. split; [|done]. by eapply reps_more.
      * exists x. split; [apply reps_done | done].
Qed.

Lemma must_sound k lo : forall hi x a,
  must mr k lo hi x = Some a -> exists y, reps R lo hi x y /\ k y = Some a.
Proof using mr_sound.
  induction lo as [|lo IH]; intros hi x a H.
  - assert (Hm : more mr k (length x.2) hi x = Some a).
    { destruct hi as [[|n]|]; simpl in H; try done. by destruct (length x.2). }
    by apply more_sound in Hm.
  - assert (Hgen : hi = Some 0 /\ k x = Some a \/
            hi <> Some 0 /\ mr x (fun y => must mr k lo (pred <$> hi) y) = Some a).
    { destruct hi as [[|n]|]; simpl in H; [left|right|right]; by split. }
    destruct Hgen as [[-> Hk]|[Hhi Hm]].
    + exists x. split; [apply reps_full | done].
    + apply mr_sound in Hm as (y & Hxy & Hy).
      apply IH in Hy as (z & Hz & Hk).
      exists z. split; [|done]. by eapply reps_must.
Qed.

Lemma more_stop k fuel hi x : more mr k fuel hi x = None -> k x = None.
Proof using Type.
  destruct fuel, hi as [[|n]|]; simpl; try done; by destruct (mr x _).
Qed.

Lemma more_complete k fuel : forall hi x,
  length x.2 <= fuel ->
  more mr k fuel hi x = None -> forall y, reps R 0 hi x y -> k y = None.
Proof using mr_complete R_length.
  induction fuel as [|f IH]; intros hi x Hf H y Hr.
  - inversion Hr; subst; try by eapply more_stop.
    match goal with Hxy : R x ?y0, Hne : length _ ≠ length _ |- _ =>
      apply R_length in Hxy; lia end.
  - inversion Hr as [lo' x'|hi' x'|lo' hi' x' y' z' Hhi Hxy Hrest|hi' x' y' z' Hhi Hxy Hne Hrest];
      subst; try by eapply more_stop.
    assert (Hm : mr x (fun y => if length y.2 =? length x.2 then None
                                else more mr k f (pred <$> hi) y) = None).
    { destruct hi as [[|n]|]; simpl in H; try done; by destruct (mr x _). }
    pose proof (mr_complete _ _ Hm _ Hxy) as Hy. simpl in Hy.
    destruct (length y'.2 =? length x.2) eqn:El.
    { apply Nat.eqb_eq in El. done. }
    eapply IH; [|exact Hy|exact Hrest].
    apply R_length in Hxy. lia.
Qed.

Lemma must_complete k lo : forall hi x,
  must mr k lo hi x = None -> forall y, reps R lo hi x y -> k y = None.
Proof using mr_complete R_length.
  induction lo as [|lo IH]; intros hi x H y Hr.
  - destruct (decide (hi = Some 0)) as [->|Hhi].
    + simpl in H. inversion Hr; subst; try done.
    + eapply (more_complete k (length x.2)); [done| |exact Hr].
      by destruct hi as [[|n]|].
  - inversion Hr as [lo' x'|hi' x'|lo' hi' x' y' z' Hhi Hxy Hrest|]; subst.
    + done.
    + assert (Hm : mr x (fun y => must mr k lo (pred <$> hi) y) = None).
      { by destruct hi as [[|n]|]. }
      pose proof (mr_complete _ _ Hm _ Hxy) as Hy. simpl in Hy.
      by eapply IH.
Qed.
End Repeat.

(** The matcher finds exactly the matches of the declarative meaning: a
    result comes from a match whose end the continuation accepts, and the
    matcher fails only when the continuation refuses the end of every
    match. *)
Lemma m_correct (r : regex) :
  (forall A x (k : pos -> option A) a,
     m r x k = Some a -> exists y, matches r x y /\ k y = Some a) /\
  (forall A x (k : pos -> option A),
     m r x k = None -> forall y, matches r x y -> k y = None).
Proof.
  induction r as [|p|r1 [S1 C1] r2 [S2 C2]|lo hi r [S C]|r [S C]| | |]; simpl.
  - split; [intros A x k a H; by exists x | by intros A x k H y ->].
  - split.
    + intros A [b s] k a H; simpl in *. destruct s as [|c rest]; [done|].
      destruct (p c) eqn:Hp; [|done]. exists (c :: b, rest). eauto 6.
    + intros A [b s] k H y (c & rest & Hx & Hp & ->); simpl in *.
      subst s. by rewrite Hp in H.
  - split.
    + intros A x k a H. apply S1 in H as (z & Hz & H).
      apply S2 in H as (y & Hy & H). eauto.
    + intros A x k H y (z & Hz & Hy).
      pose proof (C1 _ _ _ H _ Hz) as H2. simpl in H2. by eapply C2.
  - split.
    + intros A x k a H. eapply must_sound in H; [done|]. intros; by apply S.
    + intros A x k H y Hr.
      eapply must_complete in H; [done| | |exact Hr].
      * intros; by eapply C.
      * apply matches_length.
  - split.
    + intros A x k a H. destruct (m r x _) eqn:E; [done|].
      exists x. split; [|done]. split; [done|].
      intros [z Hz]. by pose proof (C _ _ _ E _ Hz).
    + intros A x k H y [-> Hn]. destruct (m r x _) eqn:E; [|done].
      apply S in E as (z & Hz & _). destruct Hn. by exists z.
  - split.
    + intros A x k a H. destruct (atBoundary x) eqn:E; [|done]. by exists x.
    + intros A x k H y [-> Hb]. by rewrite Hb in H.
  - split.
    + intros A x k a H. destruct x.1 eqn:E; [|done]. by exists x.
    + intros A x k H y [-> Hb]. by rewrite Hb in H.
  - split.
    + intros A x k a H. destruct x.2 eqn:E; [|done]. by exists x.
    + intros A x k H y [-> Hb]. by rewrite Hb in H.
Qed.

Lemma matchAt_Some (r : regex) (x y : pos) : matchAt r x = Some y -> matches r x y.
Proof.
  intros H. apply (proj1 (m_correct r)) in H as (z & Hz & Heq). congruence.
Qed.

Lemma matchAt_None (r : regex) (x : pos) :
  matchAt r x = None <-> forall y, ~ matches r x y.
Proof.
  split.
  - intros H y Hy. by pose proof (proj2 (m_correct r) _ _ _ H _ Hy).
  - intros H. destruct (matchAt r x) as [y|] eqn:E; [|done].
    apply matchAt_Some in E. by destruct (H y).
Qed.

(** [search] finds a match iff some position of the input starts one. *)
Lemma search_None (r : regex) (after : list N) : forall before,
  search r before after = None <->
  forall pre suf, after = pre ++ suf -> matchAt r (reverse pre ++ before, suf) = None.
Proof.
  induction after as [|c rest IH]; intros before; simpl.
  - split.
    + intros H pre suf Heq. symmetry in Heq. apply app_eq_nil in Heq as [-> ->].
      change (reverse [] ++ before) with before.
      by destruct (matchAt r (before, [])).
    + intros H. specialize (H [] [] eq_refl).
      change (reverse [] ++ before) with before in H. by rewrite H.
  - split.
    + intros H pre suf Heq. destruct (matchAt r (before, c :: rest)) eqn:E; [done|].
      destruct pre as [|c' pre]; simpl in Heq.
      * by subst suf.
      * inversion Heq; subst c' rest.
        rewrite reverse_cons, <- app_assoc. simpl.
        by apply (proj1 (IH (c :: before)) H).
    + intros H. pose proof (H [] (c :: rest) eq_refl) as H0.
      change (reverse [] ++ before) with before in H0. rewrite H0.
      apply IH. intros pre suf ->.
      specialize (H (c :: pre) suf eq_refl).
      by rewrite reverse_cons, <- app_assoc in H.
Qed.

Lemma search_Some (r : regex) (after : list N) : forall before x y,
  search r before after = Some (x, y) ->
  exists pre suf, after = pre ++ suf /\ x = (reverse pre ++ before, suf) /\
                  matchAt r x = Some y.
Proof.
  induction after as [|c rest IH]; intros before x y; simpl.
  - destruct (matchAt r (before, [])) eqn:E; [|done].
    intros [= <- <-]. by exists [], [].
  - destruct (matchAt r (before, c :: rest)) eqn:E.
    + intros [= <- <-]. by exists [], (c :: rest).
    + intros H. apply IH in H as (pre & suf & -> & -> & H).
      exists (c :: pre), suf. by rewrite reverse_cons, <- app_assoc.
Qed.

Lemma test_true (r : regex) (s : jsstring) :
  test r s = true <->
  exists pre suf y, s = pre ++ suf /\ matches r (reverse pre, suf) y.
Proof.
  unfold test. split.
  - destruct (search r [] s) as [[x y]|] eqn:E; [intros _|done].
    apply search_Some in E as (pre & suf & -> & -> & H).
    apply matchAt_Some in H. rewrite app_nil_r in H. by exists pre, suf, y.
  - intros (pre & suf & y & -> & Hy).
    destruct (search r [] (pre ++ suf)) eqn:E; [done|].
    pose proof (proj1 (search_None r _ []) E pre suf eq_refl) as H.
    rewrite app_nil_r in H. by destruct (proj1 (matchAt_None r _) H y).
Qed.

Lemma consuming_matches (r : regex) :
  consuming r = true -> forall x y, matches r x y -> length y.2 < length x.2.
Proof.
  induction r as [|p|r1 IH1 r2 IH2|lo hi r IH|r IH| | |]; simpl; try done.
  - intros _ x y (c & rest & Hx & _ & ->). rewrite Hx. simpl. lia.
  - intros Hc x y (z & H1 & H2).
    pose proof (matches_length _ _ _ H1). pose proof (matches_length _ _ _ H2).
    apply orb_true_iff in Hc as [Hc|Hc].
    + specialize (IH1 Hc _ _ H1). lia.
    + specialize (IH2 Hc _ _ H2). lia.
  - destruct lo as [|lo]; [done|]. intros Hc x y Hr.
    apply andb_true_iff in Hc as [Hhi Hc].
    apply negb_true_iff, bool_decide_eq_false in Hhi.
    inversion Hr as [| |lo' hi' x' y' z' _ Hxy Hrest|]; subst; [done|].
    specialize (IH Hc _ _ Hxy).
    pose proof (matches_length (Quant lo (pred <$> hi) r) _ _ Hrest). lia.
Qed.

Lemma matchAt_length (r : regex) (x y : pos) :
  matchAt r x = Some y -> length y.2 <= length x.2.
Proof. intros H. by apply matchAt_Some, matches_length in H. Qed.

(** Removing the matches of a pattern never lengthens a string. *)
Lemma replaceFrom_length (r : regex) (fuel : nat) : forall x,
  length (replaceFrom r [] fuel x) <= length x.2.
Proof.
  induction fuel as [|f IH]; intros [b s]; simpl; [done|].
  assert (Hstep : length (match s with
                          | [] => []
                          | c :: rest => c :: replaceFrom r [] f (c :: b, rest)
                          end) <= length s).
  { destruct s as [|c rest]; simpl; [done|].
    specialize (IH (c :: b, rest)). simpl in IH. lia. }
  destruct (matchAt r (b, s)) as [y|] eqn:E; [|done].
  destruct (length y.2 =? length s); [done|].
  apply matchAt_length in E. specialize (IH y). simpl in E. lia.
Qed.

Lemma replaceAll_length (r : regex) (s : jsstring) :
  length (replaceAll r [] s) <= length s.
Proof. apply (replaceFrom_length r _ (start s)). Qed.

(** Without a match the string is returned as it is. *)
Lemma replaceFrom_no_match (r : regex) (repl : jsstring) (fuel : nat) : forall x,
  search r x.1 x.2 = None -> replaceFrom r repl fuel x = x.2.
Proof.
  induction fuel as [|f IH]; intros [b s]; simpl; [done|].
  destruct s as [|c rest]; simpl.
  - by destruct (matchAt r (b, [])).
  - destruct (matchAt r (b, c :: rest)); [done|].
    intros H. by rewrite (IH (c :: b, rest)).
Qed.

Lemma replaceAll_no_match (r : regex) (repl s : jsstring) :
  test r s = false -> replaceAll r repl s = s.
Proof.
  unfold test, replaceAll. intros H.
  apply (replaceFrom_no_match r repl _ (start s)). simpl.
  by destruct (search r [] s).
Qed.

(** With a match somewhere, and every match non-empty, removing the matches
    shortens the string. *)
Lemma replaceFrom_shrinks (r : regex) (fuel : nat) :
  consuming r = true ->
  forall x, length x.2 < fuel -> search r x.1 x.2 <> None ->
  length (replaceFrom r [] fuel x) < length x.2.
Proof.
  intros Hc. induction fuel as [|f IH]; intros [b s] Hf Hs; simpl in *; [lia|].
  destruct (matchAt r (b, s)) as [y|] eqn:E.
  - pose proof (consuming_matches _ Hc _ _ (matchAt_Some _ _ _ E)) as Hlt.
    simpl in Hlt. destruct (length y.2 =? length s) eqn:El.
    { apply Nat.eqb_eq in El. lia. }
    pose proof (replaceFrom_length r f y) as Hle. simpl in *. lia.
  - destruct s as [|c rest]; simpl in Hs; rewrite E in Hs; [done|].
    simpl in Hf. assert (Hf' : length rest < f) by lia.
    specialize (IH (c :: b, rest) Hf' Hs). simpl in *. lia.
Qed.

Lemma replaceAll_shrinks (r : regex) (s : jsstring) :
  consuming r = true -> test r s = true ->
  length (replaceAll r [] s) < length s.
Proof.
  intros Hc Ht. apply (replaceFrom_shrinks r _ Hc (start s)); simpl; [lia|].
  unfold test in Ht. by destruct (search r [] s).
Qed.

(** *** The shapes the validator's patterns are built from *)

Lemma advances_intro (b w s : list N) : advances (b, w ++ s) (reverse w ++ b, s) w.
Proof. by split. Qed.

Lemma advances_nil (x y : pos) : advances x y [] <-> y = x.
Proof.
  destruct x as [b s], y as [b' s']. unfold advances; simpl. split.
  - intros [-> ->]. done.
  - intros [= -> ->]. done.
Qed.

Lemma reps_max_zero (R : pos -> pos -> Prop) (lo : nat) (x y : pos) :
  reps R lo (Some 0) x y -> y = x.
Proof. inversion 1; subst; done. Qed.

(** [r?] matches nothing, or one [r] that consumes input. *)
Lemma reps_opt (R : pos -> pos -> Prop) (x y : pos) :
  reps R 0 (Some 1) x y <-> y = x \/ (R x y /\ length y.2 <> length x.2).
Proof.
  split.
  - inversion 1 as [| | |hi' x' y' z' _ Hxy Hne Hrest]; subst; [by left|].
    apply reps_max_zero in Hrest as ->. by right.
  - intros [->|[H Hne]]; [apply reps_done|].
    eapply reps_more; [done|exact H|exact Hne|apply reps_full].
Qed.

Lemma matches_char (p : N -> bool) (x y : pos) :
  matches (Chars p) x y <-> exists c, p c = true /\ advances x y [c].
Proof.
  destruct x as [b s], y as [b' s']. unfold advances; simpl. split.
  - intros (c & rest & -> & Hp & [= -> ->]). by exists c.
  - intros (c & Hp & -> & ->). by exists c, s'.
Qed.

(** A starred one-unit atom matches a run of units of its class. *)
Lemma matches_star_chars (p : N -> bool) (x y : pos) :
  matches (star (Chars p)) x y <->
  exists w, Forall (fun c => p c = true) w /\ advances x y w.
Proof.
  unfold star. split.
  - change (matches (Quant 0 None (Chars p)) x y)
      with (reps (matches (Chars p)) 0 None x y).
    intros H. remember 0 as lo eqn:Hlo. remember (@None nat) as hi eqn:Hhi.
    induction H as [lo x|hi x|lo hi x y z _ Hxy _ IH|hi x y z _ Hxy _ _ IH];
      try done.
    + exists []. split; [constructor | apply advances_refl].
    + subst hi. destruct (IH Hlo eq_refl) as (w & Hw & Ha).
      apply matches_char in Hxy as (c & Hp & Hc).
      exists ([c] ++ w). split; [by constructor|]. by eapply advances_trans.
  - intros (w & Hw & Ha). revert x Ha.
    induction Hw as [|c w Hp Hw IH]; intros x Ha.
    + apply advances_nil in Ha as ->. apply reps_done.
    + destruct x as [b s], y as [b' s']. destruct Ha as [Hs Hb]; simpl in *.
      subst s b'. apply (reps_more _ _ _ (c :: b, w ++ s')).
      * done.
      * by exists c, (w ++ s').
      * simpl. lia.
      * apply IH. split; simpl; [done|]. by rewrite reverse_cons, <- app_assoc.
Qed.

(** An optional literal code unit. *)
Lemma matches_opt_unit (c : N) (x y : pos) :
  matches (opt (Seq (chr c) Empty)) x y <->
  exists w, (w = [] \/ w = [c]) /\ advances x y w.
Proof.
  unfold opt.
  change (matches (Quant 0 (Some 1) (Seq (chr c) Empty)) x y)
    with (reps (matches (Seq (chr c) Empty)) 0 (Some 1) x y).
  rewrite reps_opt. split.
  - intros [->|[(z & Hz & ->) _]].
    + exists []. split; [by left | apply advances_refl].
    + apply matches_char in Hz as (c' & Hc & Ha).
      apply N.eqb_eq in Hc as <-. exists [c]. split; [by right | done].
  - intros (w & [->| ->] & Ha).
    + left. by apply advances_nil.
    + right. split.
      * exists y. split; [|done]. apply matches_char. exists c.
        split; [apply N.eqb_refl | done].
      * apply advances_length in Ha. simpl in Ha. lia.
Qed.

End RegexFacts.

(** ** The runtime data store *)

Module DataStoreFacts.
Import DataStore RegexFacts.

(** A store as a content object first meets it: constructed, then
    initialized. *)
Lemma fresh_store_active (userId courseId : option jsstring) :
  initialize (construct userId courseId) =
  (true, {| data := list_to_map (defaults userId); initialized := true;
            errorCode := NO_ERROR |}).
Proof. reflexivity. Qed.

Lemma not_initialized_stays (c : call) (s : store) :
  c <> Initialize -> initialized s = false -> initialized (perform c s) = false.
Proof.
  intros Hc Hs. destruct c; simpl; try done;
    unfold terminate, getValue, setValue, commit; by rewrite Hs.
Qed.

Lemma not_initialized_run (cs : list call) : forall s,
  Initialize ∉ cs -> initialized s = false -> initialized (run cs s) = false.
Proof.
  induction cs as [|c cs IH]; intros s Hcs Hs; simpl; [done|].
  apply IH.
  - intros Hin. apply Hcs. by right.
  - apply not_initialized_stays; [|done]. intros ->. apply Hcs. by left.
Qed.

(** C1, as the code has it.  After [terminate()] succeeds from the Active
    state the store is not initialized: a second [terminate()] fails with
    "112", so do [getValue], [setValue] and [commit], and no run of these
    calls makes it Active.  There is no separate Terminated state:
    [initialize()] succeeds again and the store is Active with its data
    kept. *)
Theorem terminate_then_not_initialized (s : store) :
  initialized s = true ->
  (terminate s).1 = true /\
  initialized (terminate s).2 = false /\
  data (terminate s).2 = data s /\
  (terminate (terminate s).2).1 = false /\
  errorCode (terminate (terminate s).2).2 = js "112" /\
  (forall e, (getValue e (terminate s).2).1 = js "" /\
             errorCode (getValue e (terminate s).2).2 = js "112") /\
  (forall e v, (setValue e v (terminate s).2).1 = false /\
               errorCode (setValue e v (terminate s).2).2 = js "112") /\
  ((commit (terminate s).2).1 = false /\
   errorCode (commit (terminate s).2).2 = js "112") /\
  (forall cs, Initialize ∉ cs -> initialized (run cs (terminate s).2) = false) /\
  initialize (terminate s).2 =
    (true, {| data := data s; initialized := true; errorCode := js "0" |}).
Proof.
  intros Hs. unfold terminate. rewrite Hs. simpl.
  repeat split; try done.
  intros cs Hcs. by apply not_initialized_run.
Qed.

Lemma terminate_then_not_initialized_witness :
  initialized activeStore = true /\
  (terminate (terminate activeStore).2).1 = false /\
  errorCode (terminate (terminate activeStore).2).2 = js "112".
Proof.
  split; [reflexivity|].
  pose proof (terminate_then_not_initialized activeStore eq_refl) as H.
  split; [exact (proj1 (proj2 (proj2 (proj2 H))))
         | exact (proj1 (proj2 (proj2 (proj2 (proj2 H)))))].
Defined.

(** C1, as the specification has it, fails: on a store that was
    initialized and then terminated, [initialize()] returns [true] and the
    store is Active again. *)
Lemma terminated_store_initializes_again :
  initialized activeStore = true /\
  (terminate activeStore).1 = true /\
  (initialize (terminate activeStore).2).1 = true /\
  initialized (initialize (terminate activeStore).2).2 = true.
Proof. by vm_compute. Qed.

(** *** Writes *)

Lemma includes_true (l : list jsstring) (x : jsstring) : includes l x = true <-> x ∈ l.
Proof. unfold includes. apply bool_decide_eq_true. Qed.

Lemma includes_false (l : list jsstring) (x : jsstring) : includes l x = false <-> x ∉ l.
Proof. unfold includes. apply bool_decide_eq_false. Qed.

(** C3, as the code has it.  For every read-only element and every value,
    [setValue] returns [false] and leaves the stored elements as they were,
    in every state of the store; the last-error code is "403" when the store
    is Active and "112" when it is not initialized (before [initialize()] or
    after [terminate()]). *)
Theorem setValue_read_only (element value : jsstring) (s : store) :
  element ∈ readOnlyElements ->
  (setValue element value s).1 = false /\
  data (setValue element value s).2 = data s /\
  initialized (setValue element value s).2 = initialized s /\
  errorCode (setValue element value s).2 =
    (if initialized s then js "403" else js "112").
Proof.
  intros Hro. apply includes_true in Hro. unfold setValue. rewrite Hro.
  by destruct s as [d [|] e].
Qed.

Lemma setValue_read_only_witness :
  js "cmi.core.student_id" ∈ readOnlyElements /\
  (setValue (js "cmi.core.student_id") (js "x") activeStore).1 = false /\
  errorCode (setValue (js "cmi.core.student_id") (js "x") activeStore).2 = js "403".
Proof.
  assert (H : js "cmi.core.student_id" ∈ readOnlyElements) by (by vm_compute; left).
  split; [exact H|].
  pose proof (setValue_read_only (js "cmi.core.student_id") (js "x") activeStore H) as T.
  split; [exact (proj1 T) | exact (proj2 (proj2 (proj2 T)))].
Defined.

(** C3, as the specification has it, fails: before [initialize()] a write
    to a read-only element is answered with "112", not "403". *)
Lemma read_only_write_before_initialize :
  js "cmi.core.student_id" ∈ readOnlyElements /\
  initialized (construct None None) = false /\
  (setValue (js "cmi.core.student_id") (js "x") (construct None None)).1 = false /\
  errorCode (setValue (js "cmi.core.student_id") (js "x") (construct None None)).2
    = js "112" /\
  js "112" <> js "403".
Proof. split; [by vm_compute; left|]. by vm_compute. Qed.

(** C2, as the code has it.  For every element outside the read-only set
    and every value, if the store is Active and per-element validation
    rejects the value, [setValue] returns [false], the last-error code
    becomes "405", and the stored elements are exactly as before. *)
Theorem setValue_invalid (element value : jsstring) (s : store) :
  initialized s = true ->
  element ∉ readOnlyElements ->
  validateSCORMElement element value = false ->
  (setValue element value s).1 = false /\
  errorCode (setValue element value s).2 = js "405" /\
  data (setValue element value s).2 = data s /\
  initialized (setValue element value s).2 = true.
Proof.
  intros Hs Hro Hv. apply includes_false in Hro.
  unfold setValue. by rewrite Hs, Hro, Hv.
Qed.

Lemma setValue_invalid_witness :
  (setValue (js "cmi.core.lesson_status") (js "done") activeStore).1 = false /\
  errorCode (setValue (js "cmi.core.lesson_status") (js "done") activeStore).2 = js "405" /\
  data (setValue (js "cmi.core.lesson_status") (js "done") activeStore).2
    = data activeStore.
Proof.
  assert (Hro : js "cmi.core.lesson_status" ∉ readOnlyElements).
  { apply includes_false. by vm_compute. }
  assert (Hv : validateSCORMElement (js "cmi.core.lesson_status") (js "done") = false)
    by (by vm_compute).
  pose proof (setValue_invalid (js "cmi.core.lesson_status") (js "done") activeStore
                eq_refl Hro Hv) as T.
  split; [exact (proj1 T)|]. split; [exact (proj1 (proj2 T))|].
  exact (proj1 (proj2 (proj2 T))).
Defined.

(** C2, as the specification has it, fails: the read-only test comes before
    validation, so for the read-only element [cmi.core.total_time] a value
    that validation rejects is answered with "403", not "405". *)
Lemma invalid_write_to_read_only :
  initialized activeStore = true /\
  validateSCORMElement (js "cmi.core.total_time") (js "abc") = false /\
  (setValue (js "cmi.core.total_time") (js "abc") activeStore).1 = false /\
  errorCode (setValue (js "cmi.core.total_time") (js "abc") activeStore).2 = js "403" /\
  js "403" <> js "405".
Proof. by vm_compute. Qed.

(** *** Score values *)

(** Evaluates the tests of [validateSCORMElement] on a known element. *)
Ltac closed_tests :=
  repeat match goal with
  | |- context [bool_decide (js ?a = js ?b)] =>
    let v := eval vm_compute in (bool_decide (js a = js b)) in
    replace (bool_decide (js a = js b)) with v by (by vm_compute)
  | |- context [includes ?l (js ?a)] =>
    let v := eval vm_compute in (includes l (js a)) in
    replace (includes l (js a)) with v by (by vm_compute)
  end.

(** The score pattern accepts exactly the strings made of an optional
    [-], a run of digits, an optional [.] and a run of digits. *)
Lemma test_scorePattern (v : jsstring) :
  test scorePattern v = true <-> signedDecimal v.
Proof.
  rewrite test_true. unfold signedDecimal.
  change scorePattern with
    (Seq Bol (Seq (opt (Seq (chr 45) Empty)) (Seq (star (Chars isDigit))
      (Seq (opt (Seq (chr 46) Empty)) (Seq (star (Chars isDigit)) Eol))))).
  change (js "-") with [45%N]. change (js ".") with [46%N].
  split.
  - intros (pre & suf & y & -> & H).
    destruct H as (z1 & [-> Hb] & z2 & H2 & z3 & H3 & z4 & H4 & z5 & H5 & -> & He).
    simpl in Hb. apply (f_equal length) in Hb. rewrite length_reverse in Hb.
    destruct pre; [|done]. simpl.
    apply matches_opt_unit in H2 as (sign & Hsign & [A2 _]).
    apply matches_star_chars in H3 as (int & Hint & [A3 _]).
    apply matches_opt_unit in H4 as (dot & Hdot & [A4 _]).
    apply matches_star_chars in H5 as (frac & Hfrac & [A5 _]).
    simpl in A2. rewrite He, app_nil_r in A5.
    exists sign, int, dot, frac. split; [|done].
    by rewrite A2, A3, A4, A5.
  - intros (sign & int & dot & frac & -> & Hsign & Hint & Hdot & Hfrac).
    exists [], (sign ++ int ++ dot ++ frac).
    exists (reverse frac ++ reverse dot ++ reverse int ++ reverse sign ++ [], []).
    split; [done|].
    exists ([], sign ++ int ++ dot ++ frac). split; [done|].
    exists (reverse sign ++ [], int ++ dot ++ frac).
    split; [apply matches_opt_unit; exists sign; split; [done | apply advances_intro]|].
    exists (reverse int ++ reverse sign ++ [], dot ++ frac).
    split; [apply matches_star_chars; exists int; split; [done | apply advances_intro]|].
    exists (reverse dot ++ reverse int ++ reverse sign ++ [], frac).
    split; [apply matches_opt_unit; exists dot; split; [done | apply advances_intro]|].
    exists (reverse frac ++ reverse dot ++ reverse int ++ reverse sign ++ [], []).
    split; [|done].
    apply matches_star_chars. exists frac. split; [done|].
    rewrite <- (app_nil_r frac) at 1. apply advances_intro.
Qed.



(** The values the pattern lets through include the empty string and a
    lone sign or point: the runs of digits may be empty. *)
Lemma setValue_score_blank :
  (setValue (js "cmi.core.score.raw") (js "") activeStore).1 = true /\
  (setValue (js "cmi.core.score.raw") (js "-") activeStore).1 = true /\
  (setValue (js "cmi.core.score.raw") (js ".") activeStore).1 = true /\
  (setValue (js "cmi.core.score.raw") (js "1.2.3") activeStore).1 = false /\
  (setValue (js "cmi.core.score.raw") (js "12345678901") activeStore).1 = false.
Proof. by vm_compute. Qed.

(** The time pattern counts digits and does not bound them: a minute
    field of 61 passes, a one-digit hour field or three fraction digits do
    not. *)
Lemma timePattern_examples :
  test timePattern (js "250:61:00") = true /\
  test timePattern (js "00:00:00.5") = true /\
  test timePattern (js "0:10:00") = false /\
  test timePattern (js "00:00:00.123") = false /\
  (setValue (js "cmi.core.session_time") (js "250:61:00") activeStore).1 = true.
Proof. by vm_compute. Qed.

(** *** Sanitized round trip *)

Lemma trimStart_length (s : jsstring) : length (trimStart s) <= length s.
Proof.
  induction s as [|c s IH]; simpl; [done|].
  destruct (isWhiteSpace c); simpl; lia.
Qed.

Lemma trim_length (s : jsstring) : length (trim s) <= length s.
Proof.
  unfold trim, trimEnd. rewrite length_reverse.
  pose proof (trimStart_length (reverse (trimStart s))) as H.
  rewrite length_reverse in H. pose proof (trimStart_length s). lia.
Qed.

Lemma sanitizeValue_length (v : jsstring) :
  length (sanitizeValue v) <= 4096 /\ length (sanitizeValue v) <= length v.
Proof.
  unfold sanitizeValue, substring0. rewrite length_take.
  split; [lia|].
  pose proof (trim_length (replaceAll eventHandler (js "")
    (replaceAll scriptUri (js "") (replaceAll scriptBlock (js "") v)))) as H1.
  pose proof (replaceAll_length eventHandler
    (replaceAll scriptUri (js "") (replaceAll scriptBlock (js "") v))) as H2.
  pose proof (replaceAll_length scriptUri (replaceAll scriptBlock (js "") v)) as H3.
  pose proof (replaceAll_length scriptBlock v) as H4.
  change (js "") with (@nil N) in *. lia.
Qed.

(** A value with a script-bearing sequence comes out of the sanitizer
    strictly shorter. *)
Lemma sanitizeValue_shrinks (v : jsstring) :
  scriptBearing v = true -> length (sanitizeValue v) < length v.
Proof.
  unfold scriptBearing, sanitizeValue, substring0. intros H.
  rewrite length_take. change (js "") with (@nil N).
  set (a := replaceAll scriptBlock [] v).
  set (b := replaceAll scriptUri [] a).
  set (c := replaceAll eventHandler [] b).
  pose proof (trim_length c) as Ht.
  pose proof (replaceAll_length eventHandler b) as Hc.
  pose proof (replaceAll_length scriptUri a) as Hb.
  pose proof (replaceAll_length scriptBlock v) as Ha.
  fold a in Ha. fold b in Hb. fold c in Hc.
  enough (length c < length v) by lia.
  destruct (test scriptBlock v) eqn:E1.
  { pose proof (replaceAll_shrinks scriptBlock v eq_refl E1) as Hlt. fold a in Hlt. lia. }
  assert (Hav : a = v) by (by apply replaceAll_no_match).
  destruct (test scriptUri v) eqn:E2.
  { rewrite <- Hav in E2.
    pose proof (replaceAll_shrinks scriptUri a eq_refl E2) as Hlt. fold b in Hlt. lia. }
  assert (Hbv : b = v).
  { unfold b. rewrite Hav. by apply replaceAll_no_match. }
  simpl in H. rewrite <- Hbv in H.
  pose proof (replaceAll_shrinks eventHandler b eq_refl H) as Hlt. fold c in Hlt.
  rewrite Hbv in Hlt. lia.
Qed.

Lemma orElse_Some (v : jsstring) : orElse (Some v) (js "") = v.
Proof. by destruct v. Qed.



(** *** Defaults *)

(** C10.  A freshly constructed store, once initialized, answers
    [getValue] on the pre-seeded elements with their defaults, which are not
    empty, whatever user id and course id it was built with. *)
Theorem defaults_readable (userId courseId : option jsstring) :
  (initialize (construct userId courseId)).1 = true /\
  let s := (initialize (construct userId courseId)).2 in
  (getValue (js "cmi.core.lesson_status") s).1 = js "not attempted" /\
  (getValue (js "cmi.core.credit") s).1 = js "credit" /\
  (getValue (js "cmi.core.entry") s).1 = js "ab-initio" /\
  (getValue (js "cmi.core.student_name") s).1 = js "Student" /\
  (getValue (js "cmi.core.total_time") s).1 = js "00:00:00" /\
  (getValue (js "cmi.core.lesson_mode") s).1 = js "normal" /\
  (getValue (js "cmi.core.session_time") s).1 = js "00:00:00" /\
  (getValue (js "cmi.core.student_id") s).1 = orElse userId (js "student_001") /\
  (getValue (js "cmi.core.student_id") s).1 <> js "" /\
  (forall e, errorCode (getValue e s).2 = js "0").
Proof.
  split; [reflexivity|]. cbv zeta.
  repeat split; try (by vm_compute).
  - destruct userId as [[|c u]|]; by vm_compute.
  - destruct userId as [[|c u]|]; by vm_compute.
Qed.

End DataStoreFacts.

(** ** The play-list *)

Module ManifestFacts.

(** Induction over an item tree, with the property assumed for the
    children. *)
Lemma SCORMItem_forall_ind (P : SCORMItem -> Prop) :
  (forall i t h v cs, Forall P cs -> P (Item i t h v cs)) ->
  forall item, P item.
Proof.
  intros H. fix IH 1. intros [i t h v cs]. apply H.
  induction cs as [|c cs IHcs]; constructor; [apply IH | exact IHcs].
Qed.

Lemma fold_visit (l : list SCORMItem) :
  Forall (fun c => forall acc, visitItem acc c = acc ++ List.filter playable (preorder c)) l ->
  forall acc, fold_left visitItem l acc = acc ++ List.filter playable (flat_map preorder l).
Proof.
  induction 1 as [|c l Hc _ IH]; intros acc; simpl.
  - by rewrite app_nil_r.
  - by rewrite IH, Hc, List.filter_app, app_assoc.
Qed.

(** Visiting an item appends the playable items of its subtree, in
    pre-order, to what was collected before. *)
Lemma visitItem_preorder (item : SCORMItem) : forall acc,
  visitItem acc item = acc ++ List.filter playable (preorder item).
Proof.
  induction item as [i t h v cs IH] using SCORMItem_forall_ind. intros acc.
  assert (Hfold : forall pushed,
    (if 0 <? length cs then fold_left visitItem cs pushed else pushed)
    = pushed ++ List.filter playable (flat_map preorder cs)).
  { intros pushed. destruct cs as [|c cs]; simpl.
    - by rewrite app_nil_r.
    - by apply (fold_visit (c :: cs)). }
  change (visitItem acc (Item i t h v cs)) with
    (if 0 <? length cs
     then fold_left visitItem cs
            (if playable (Item i t h v cs) then acc ++ [Item i t h v cs] else acc)
     else (if playable (Item i t h v cs) then acc ++ [Item i t h v cs] else acc)).
  rewrite Hfold.
  change (preorder (Item i t h v cs))
    with (Item i t h v cs :: flat_map preorder cs).
  simpl List.filter.
  destruct (playable (Item i t h v cs)); [|done].
  by rewrite <- app_assoc.
Qed.

Lemma extractPlayableItems_preorder (l acc : list SCORMItem) :
  extractPlayableItems acc l = acc ++ List.filter playable (flat_map preorder l).
Proof.
  apply fold_visit, Forall_forall. intros c _. apply visitItem_preorder.
Qed.

Lemma fold_organizations (orgs : list SCORMOrganization) : forall acc,
  fold_left (fun a org => extractPlayableItems a (items org)) orgs acc
  = acc ++ List.filter playable (flat_map preorder (flat_map items orgs)).
Proof.
  induction orgs as [|o orgs IH]; intros acc; simpl.
  - by rewrite app_nil_r.
  - by rewrite IH, extractPlayableItems_preorder, flat_map_app, List.filter_app, app_assoc.
Qed.

(** C4.  [getPlayableItems] returns the items of the pre-order listing of
    every organization's trees that have an href and are visible, in that
    order; an item that fails the test is left out and its children are
    still listed.  For one organization with items [A, B[C, D], E], where
    [B] is invisible and the leaves [A], [C], [D], [E] are visible and have
    an href, the play-list is [A, C, D, E]. *)
Theorem getPlayableItems_preorder :
  (forall manifest,
     getPlayableItems manifest = List.filter playable (preorderAll manifest)) /\
  (forall manifest org A B C D E,
     organizations manifest = [org] -> items org = [A; B; E] ->
     children B = [C; D] -> isVisible B = false ->
     Forall (fun i => children i = [] /\ truthy (href i) = true /\ isVisible i = true)
            [A; C; D; E] ->
     getPlayableItems manifest = [A; C; D; E]).
Proof.
  assert (Hall : forall manifest,
     getPlayableItems manifest = List.filter playable (preorderAll manifest)).
  { intros manifest. unfold getPlayableItems, preorderAll.
    by rewrite fold_organizations. }
  split; [exact Hall|].
  intros manifest org A B C D E Horg Hitems HB HvB Hleaves.
  rewrite Hall. unfold preorderAll. rewrite Horg. simpl. rewrite Hitems, app_nil_r.
  apply Forall_cons in Hleaves as [(HA & HhA & HvA) Hleaves].
  apply Forall_cons in Hleaves as [(HC & HhC & HvC) Hleaves].
  apply Forall_cons in Hleaves as [(HD & HhD & HvD) Hleaves].
  apply Forall_cons in Hleaves as [(HE & HhE & HvE) _].
  destruct A as [iA tA hA vA cA], B as [iB tB hB vB cB], C as [iC tC hC vC cC],
    D as [iD tD hD vD cD], E as [iE tE hE vE cE]; simpl in *; subst.
  unfold playable; simpl. rewrite HhA, HhC, HhD, HhE. simpl.
  by rewrite andb_false_r.
Qed.

Lemma getPlayableItems_preorder_witness :
  getPlayableItems exampleManifest = [itemA; itemC; itemD; itemE].
Proof.
  apply (proj2 getPlayableItems_preorder exampleManifest exampleOrganization
           itemA itemB itemC itemD itemE); try reflexivity.
  repeat constructor.
Defined.

End ManifestFacts.

(** ** API discovery *)

Module BridgeFacts.
Import Bridge.

Section Discovery.
Context {Api : Type}.
Implicit Types (win : Window Api) (b : Bindings Api).

Lemma chain_head win : chain win = bindings win :: tail (chain win).
Proof. by destruct win. Qed.

Lemma firstPublished_head b (l : list (Bindings Api)) :
  hasApi b = true -> firstPublished (b :: l) = published b.
Proof. unfold hasApi. simpl. by destruct (published b). Qed.

Lemma firstPublished_skip b (l : list (Bindings Api)) :
  hasApi b = false -> firstPublished (b :: l) = firstPublished l.
Proof. unfold hasApi. simpl. by destruct (published b). Qed.

Lemma firstPublished_single b : firstPublished [b] = published b.
Proof. simpl. by destruct (published b). Qed.

(** The early [break] changes nothing: both loops end in the same state. *)
Lemma findLoop_bootstrapLoop win : forall n, findLoop win n = bootstrapLoop win n.
Proof.
  induction win as [b sp|b parent IH]; intros n; simpl; [done|].
  destruct (negb (hasApi b) && (n <? 500)); [|done].
  destruct (hasApi (bindings parent)) eqn:E; [|apply IH].
  destruct parent as [b' sp|b' parent']; simpl in *; [done|]. by rewrite E.
Qed.

Lemma bootstrapLoop_spec win : forall n0, n0 <= 500 ->
  n0 <= (bootstrapLoop win n0).2 <= 500 /\
  chain win !! ((bootstrapLoop win n0).2 - n0) = Some (bindings (bootstrapLoop win n0).1) /\
  (forall i b, i < (bootstrapLoop win n0).2 - n0 -> chain win !! i = Some b ->
               hasApi b = false) /\
  (hasApi (bindings (bootstrapLoop win n0).1) = false ->
   (bootstrapLoop win n0).2 = 500 \/
   S ((bootstrapLoop win n0).2 - n0) = length (chain win)) /\
  published (bindings (bootstrapLoop win n0).1)
    = firstPublished (take (501 - n0) (chain win)).
Proof.
  induction win as [b sp|b parent IH]; intros n0 Hn0; simpl.
  - rewrite Nat.sub_diag. repeat split; try done; try lia.
    replace (501 - n0) with (S (500 - n0)) by lia. simpl.
    rewrite take_nil. by destruct (published b).
  - destruct (hasApi b) eqn:Hb; simpl.
    + rewrite Nat.sub_diag. repeat split; try done; try lia.
      * congruence.
      * replace (501 - n0) with (S (500 - n0)) by lia.
        by rewrite firstn_cons, firstPublished_head.
    + destruct (Nat.ltb_spec n0 500) as [Hlt|Hge]; simpl.
      * destruct (IH (S n0) Hlt) as (Hr & Hc & Hbefore & Hstop & Hpub).
        set (r := bootstrapLoop parent (S n0)) in *.
        replace (r.2 - n0) with (S (r.2 - S n0)) by lia.
        repeat split; try lia; try done.
        -- intros [|i] b' Hi Hl; simpl in Hl; [by inversion Hl; subst|].
           apply (Hbefore i b'); [lia|done].
        -- intros Hno. destruct (Hstop Hno) as [?|Hlen]; [by left|right]. lia.
        -- rewrite Hpub. replace (501 - n0) with (S (501 - S n0)) by lia.
           by rewrite firstn_cons, firstPublished_skip.
      * assert (n0 = 500) as -> by lia. simpl.
        repeat split; try done; try lia.
        by destruct (published b).
Qed.

(** C8.  From any window of a finite parent chain, the discovery loop
    ends after [n] ascents, [n <= 500], on the [n]-th ancestor; every
    context it left behind had neither binding; it stops on a context
    without a binding only after 500 ascents or at the top of the chain
    (whose parent is itself or null); and [findAPI] returns the binding of
    the first context, among the starting one and its first 500 ancestors,
    that publishes one ([API] before [API_1484_11]), or nothing when none
    does.  The loop written into hosted documents returns the same. *)
Theorem findAPI_discovery win :
  (findLoop win 0).2 <= 500 /\
  chain win !! (findLoop win 0).2 = Some (bindings (findLoop win 0).1) /\
  (forall i b, i < (findLoop win 0).2 -> chain win !! i = Some b -> hasApi b = false) /\
  (hasApi (bindings (findLoop win 0).1) = false ->
   (findLoop win 0).2 = 500 \/ S (findLoop win 0).2 = length (chain win)) /\
  findAPI win = firstPublished (take 501 (chain win)) /\
  bootstrapFindAPI win = findAPI win.
Proof.
  unfold findAPI, bootstrapFindAPI. rewrite findLoop_bootstrapLoop.
  destruct (bootstrapLoop_spec win 0) as (Hr & Hc & Hbefore & Hstop & Hpub); [lia|].
  rewrite Nat.sub_0_r in *.
  repeat split; try done; lia.
Qed.

End Discovery.

Lemma findAPI_discovery_witness :
  findAPI (Frame noBindings (Frame noBindings (Top (currentOnly 7) true))) = Some 7.
Proof.
  rewrite (proj1 (proj2 (proj2 (proj2 (proj2 (findAPI_discovery _)))))).
  by vm_compute.
Defined.

(** More chains: the nearest binding wins, and an API that sits exactly
    500 ascents away is found while one that sits 501 ascents away is not. *)
Lemma findAPI_examples :
  findAPI (Frame noBindings (Frame noBindings (Top (currentOnly 7) true))) = Some 7 /\
  findAPI (Frame (legacyOnly 1) (Top (legacyOnly 2) false)) = Some 1 /\
  findAPI (Nat.iter 500 (Frame noBindings) (Top (legacyOnly 7) true)) = Some 7 /\
  findAPI (Nat.iter 501 (Frame noBindings) (Top (legacyOnly 7) true)) = None.
Proof. by vm_compute. Qed.

End BridgeFacts.

(** ** The package store *)

Module PackageStoreFacts.
Import PackageStore.

(** *** Lookup by id *)

Lemma find_app_None {A : Type} (f : A -> bool) (l l' : list A) :
  List.find f l = None -> List.find f (l ++ l') = List.find f l'.
Proof.
  induction l as [|a l IH]; simpl; [done|]. by destruct (f a).
Qed.

(** C6, as the code has it.  [getPackageById] reads the degraded tier only
    when the primary tier cannot be opened.  When the primary tier works,
    the answer is what the primary tier holds for the id, and it is [null]
    when the primary tier holds nothing, whatever the degraded tier holds.
    When the primary tier cannot be opened, the answer is the first catalog
    entry of the degraded tier with that id, so a package whose metadata
    went to the degraded tier is found then. *)
Theorem getPackageById_tiers (packageId : jsstring) (st : Storage) :
  (forall db, indexedDB st = Working db ->
     getPackageById packageId st = Resolved (revive <$> packages db !! packageId)) /\
  (indexedDB st = Unavailable ->
     getPackageById packageId st =
     Resolved (revive <$> List.find (fun d => bool_decide (dataId d = packageId))
                                    (localStorage st))) /\
  (forall p, indexedDB st <> Unavailable ->
     (forall db, indexedDB st <> Working db) ->
     localStorage (storePackage p st) = localStorage st ++ [metadata p] /\
     indexedDB (storePackage p st) = indexedDB st) /\
  (forall p, indexedDB st = Unavailable ->
     List.find (fun d => bool_decide (dataId d = id p)) (localStorage st) = None ->
     getPackageById (id p) (storePackage p st) = Resolved (Some (revive (metadata p)))).
Proof.
  unfold getPackageById, storePackage, getStoredPackageList.
  split; [|split; [|split]].
  - intros db ->. by destruct (packages db !! packageId).
  - intros ->. by destruct (List.find _ _).
  - intros p Hu Hw. destruct (indexedDB st) as [|db|db] eqn:E; try done.
    by destruct (Hw db).
  - intros p -> Hnone. simpl.
    rewrite (find_app_None _ _ _ Hnone). simpl.
    by rewrite bool_decide_eq_true_2.
Qed.

Lemma getPackageById_tiers_witness :
  getPackageById (js "scorm_1_abc") (unavailable degradedWrite)
  = Resolved (Some (revive (metadata examplePackage))).
Proof.
  rewrite (proj1 (proj2 (getPackageById_tiers (js "scorm_1_abc")
                           (unavailable degradedWrite))) eq_refl).
  by vm_compute.
Defined.

(** C6, as the specification has it, fails: a package whose metadata was
    written to the degraded tier only (the primary tier failed during the
    write) is not found once the primary tier works: the lookup resolves to
    [null] although the degraded tier holds the catalog entry. *)
Lemma degraded_entry_not_found :
  localStorage degradedWrite = [metadata examplePackage] /\
  indexedDB degradedWrite = Failing emptyDatabase /\
  List.find (fun d => bool_decide (dataId d = js "scorm_1_abc"))
            (localStorage (recovered degradedWrite)) = Some (metadata examplePackage) /\
  getPackageById (js "scorm_1_abc") (recovered degradedWrite) = Resolved None.
Proof. by vm_compute. Qed.

(** *** Upload *)

Lemma endsWith_zip_examples :
  endsWith (toLowerCase (js "Course.ZIP")) (js ".zip") = true /\
  endsWith (toLowerCase (js "course.zip.txt")) (js ".zip") = false /\
  endsWith (toLowerCase (js "zip")) (js ".zip") = false.
Proof. by vm_compute. Qed.

(** Whenever [uploadPackage] throws, nothing was written and the storage
    is as before. *)
Lemma uploadPackage_thrown (env : Env) (file : File) (st : Storage) t msg st' :
  uploadPackage env file st = (t, Thrown msg, st') ->
  st' = st /\ Forall (fun e => isStoreWrite e = false) t.
Proof.
  unfold uploadPackage.
  destruct (negb (endsWith _ _)); [by intros [= <- <- <-]|].
  destruct (_ <? _)%N; [by intros [= <- <- <-]|].
  destruct (loadAsync env _) as [zipContents|]; [|intros [= <- <- <-]; by repeat constructor].
  destruct (zipFile _ _) as [manifestFile|]; [|intros [= <- <- <-]; by repeat constructor].
  destruct (parseFromXML env _) as [mf|]; [|intros [= <- <- <-]; by repeat constructor].
  destruct (length (organizations mf) =? 0); [|done].
  intros [= <- <- <-]. by repeat constructor.
Qed.

(** C7.  [uploadPackage] throws, with the storage untouched and before any
    event (so before the archive is loaded or any entry extracted), for
    every file whose lower-cased name does not end in [.zip] and for every
    file larger than 100 MiB.  It also throws, with the storage untouched
    and no store write, when the loaded archive has no non-folder entry
    named [imsmanifest.xml] and when the parsed manifest has no
    organizations. *)
Theorem uploadPackage_rejects (env : Env) (file : File) (st : Storage) :
  (endsWith (toLowerCase (fileName file)) (js ".zip") = false ->
   uploadPackage env file st = ([], Thrown (js "SCORM packages must be ZIP files"), st)) /\
  ((100 * 1024 * 1024 < fileSize file)%N ->
   uploadPackage env file st =
   ([], Thrown (if endsWith (toLowerCase (fileName file)) (js ".zip")
                then js "Package size exceeds 100MB limit"
                else js "SCORM packages must be ZIP files"), st)) /\
  (forall entries,
     loadAsync env (fileBytes file) = Some entries ->
     zipFile entries (js "imsmanifest.xml") = None ->
     exists t msg, uploadPackage env file st = (t, Thrown msg, st) /\
                   Forall (fun e => isStoreWrite e = false) t /\
                   (endsWith (toLowerCase (fileName file)) (js ".zip") = true ->
                    (fileSize file <= 100 * 1024 * 1024)%N ->
                    msg = js "Invalid SCORM package: imsmanifest.xml not found")) /\
  (forall entries manifestFile mf,
     loadAsync env (fileBytes file) = Some entries ->
     zipFile entries (js "imsmanifest.xml") = Some manifestFile ->
     parseFromXML env (content manifestFile) = Some mf ->
     organizations mf = [] ->
     exists t msg, uploadPackage env file st = (t, Thrown msg, st) /\
                   Forall (fun e => isStoreWrite e = false) t /\
                   (endsWith (toLowerCase (fileName file)) (js ".zip") = true ->
                    (fileSize file <= 100 * 1024 * 1024)%N ->
                    msg = js "Invalid SCORM manifest: No organizations found")).
Proof.
  unfold uploadPackage. change MAX_PACKAGE_SIZE with (100 * 1024 * 1024)%N.
  split; [|split; [|split]].
  - by intros ->.
  - intros Hsize. apply N.ltb_lt in Hsize. rewrite Hsize.
    by destruct (endsWith _ _).
  - intros entries Hload Hfile. rewrite Hload, Hfile.
    destruct (endsWith _ _); simpl; [|eexists _, _; by repeat split].
    destruct (N.ltb_spec (100 * 1024 * 1024) (fileSize file)) as [Hlt|Hle].
    + eexists _, _. split; [done|]. split; [done|]. intros _ ?. lia.
    + eexists _, _. split; [done|]. split; [by repeat constructor|done].
  - intros entries manifestFile mf Hload Hfile Hparse Horgs.
    rewrite Hload, Hfile, Hparse, Horgs. simpl.
    destruct (endsWith _ _); simpl; [|eexists _, _; by repeat split].
    destruct (N.ltb_spec (100 * 1024 * 1024) (fileSize file)) as [Hlt|Hle].
    + eexists _, _. split; [done|]. split; [done|]. intros _ ?. lia.
    + eexists _, _. split; [done|]. split; [by repeat constructor|done].
Qed.

Lemma uploadPackage_rejects_witness :
  uploadPackage (exampleEnv [] exampleManifest) textFile emptyStorage
    = ([], Thrown (js "SCORM packages must be ZIP files"), emptyStorage) /\
  uploadPackage (exampleEnv [] exampleManifest) hugeFile emptyStorage
    = ([], Thrown (js "Package size exceeds 100MB limit"), emptyStorage) /\
  (exists t msg,
     uploadPackage (exampleEnv [pageEntry; nestedManifestEntry] exampleManifest)
                   zipUpload emptyStorage = (t, Thrown msg, emptyStorage) /\
     Forall (fun e => isStoreWrite e = false) t) /\
  (exists t msg,
     uploadPackage (exampleEnv [manifestEntry; pageEntry] noOrganizations)
                   zipUpload emptyStorage = (t, Thrown msg, emptyStorage) /\
     Forall (fun e => isStoreWrite e = false) t).
Proof.
  split; [|split; [|split]].
  - apply (proj1 (uploadPackage_rejects (exampleEnv [] exampleManifest)
                    textFile emptyStorage)).
    by vm_compute.
  - rewrite (proj1 (proj2 (uploadPackage_rejects (exampleEnv [] exampleManifest)
                             hugeFile emptyStorage))); by vm_compute.
  - destruct (proj1 (proj2 (proj2 (uploadPackage_rejects
                (exampleEnv [pageEntry; nestedManifestEntry] exampleManifest)
                zipUpload emptyStorage)))
              [pageEntry; nestedManifestEntry] eq_refl)
      as (t & msg & Hup & Ht & _); [by vm_compute|].
    by exists t, msg.
  - destruct (proj2 (proj2 (proj2 (uploadPackage_rejects
                (exampleEnv [manifestEntry; pageEntry] noOrganizations)
                zipUpload emptyStorage)))
              [manifestEntry; pageEntry] manifestEntry noOrganizations
              eq_refl)
      as (t & msg & Hup & Ht & _); [by vm_compute|reflexivity|reflexivity|].
    by exists t, msg.
Defined.

(** An accepted upload, for comparison: the archive is loaded, the manifest
    read and parsed, both entries extracted, and the package stored in the
    primary tier. *)
Lemma uploadPackage_accepts :
  exists t p st,
    uploadPackage (exampleEnv [manifestEntry; pageEntry] exampleManifest)
                  zipUpload emptyStorage = (t, Returned p, st) /\
    List.filter isStoreWrite t = [StoreWrite] /\
    List.filter isExtraction t =
      [LoadArchive; ReadManifestEntry; ExtractEntry (js "imsmanifest.xml");
       ExtractEntry (js "a.html")] /\
    name p = js "course" /\
    getPackageById (id p) st = Resolved (Some (revive (metadata p))).
Proof. eexists _, _, _. split; [reflexivity|]. by vm_compute. Qed.

End PackageStoreFacts.

(** ** More on patterns *)

Module PatternFacts.
Import RegexFacts.

(** A match of a pattern that starts with an atom starts on a code unit of
    that atom. *)
Lemma leading_matches (r : regex) (p : N -> bool) :
  leading r = Some p ->
  forall x y, matches r x y -> exists c rest, x.2 = c :: rest /\ p c = true.
Proof.
  induction r as [|q|r1 IH1 r2 _|lo hi r _|r _| | |]; simpl; try done.
  - intros [= ->] x y (c & rest & Hx & Hp & _). eauto.
  - intros Hl x y (z & H1 & _). eauto.
Qed.

(** Such a pattern matches nowhere in a string without a code unit of its
    first atom. *)
Lemma test_without_leading (r : regex) (p : N -> bool) (s : jsstring) :
  leading r = Some p -> Forall (fun c => p c = false) s -> test r s = false.
Proof.
  intros Hl Hs. destruct (test r s) eqn:E; [|done].
  apply test_true in E as (pre & suf & y & -> & Hm).
  destruct (leading_matches r p Hl _ _ Hm) as (c & rest & Hx & Hp). simpl in Hx.
  subst suf. apply Forall_app in Hs as [_ Hs]. apply Forall_cons in Hs as [Hc _].
  congruence.
Qed.

(** A counted repetition of a one-unit atom matches a run of its class
    whose length is within the bounds. *)
Lemma reps_chars_bounds (p : N -> bool) (lo : nat) (hi : option nat) (x y : pos) :
  reps (matches (Chars p)) lo hi x y ->
  exists w, Forall (fun c => p c = true) w /\ advances x y w /\
            (forall h, hi = Some h -> length w <= h /\ (lo <= h -> lo <= length w)) /\
            (hi = None -> lo <= length w).
Proof.
  induction 1 as [lo x|hi x|lo hi x y z Hhi Hxy _ IH|hi x y z Hhi Hxy _ _ IH].
  - exists []. split; [constructor|]. split; [apply advances_refl|]. split; [|done].
    intros h [= <-]. simpl. lia.
  - exists []. split; [constructor|]. split; [apply advances_refl|]. simpl.
    split; intros; lia.
  - destruct IH as (w & Hw & Ha & Hb & Hn).
    apply matches_char in Hxy as (c & Hp & Hc).
    exists ([c] ++ w). split; [by constructor|]. split; [by eapply advances_trans|].
    split.
    + intros h Hh. subst hi. destruct h as [|h']; [done|].
      destruct (Hb h' eq_refl) as [H1 H2]. simpl. split; [lia|]. intros Hle.
      assert (Hle' : lo <= h') by lia. specialize (H2 Hle'). lia.
    + intros Hh. subst hi. specialize (Hn eq_refl). simpl. lia.
  - destruct IH as (w & Hw & Ha & Hb & Hn).
    apply matches_char in Hxy as (c & Hp & Hc).
    exists ([c] ++ w). split; [by constructor|]. split; [by eapply advances_trans|].
    split.
    + intros h Hh. subst hi. destruct h as [|h']; [done|].
      destruct (Hb h' eq_refl) as [H1 H2]. simpl. split; lia.
    + intros _. lia.
Qed.

Lemma reps_chars_intro (p : N -> bool) (w : list N) :
  Forall (fun c => p c = true) w ->
  forall lo hi x y, advances x y w -> lo <= length w <= hi ->
  reps (matches (Chars p)) lo (Some hi) x y.
Proof.
  induction 1 as [|c w Hp Hw IH]; intros lo hi x y Ha Hb; simpl in Hb.
  - apply advances_nil in Ha as ->. assert (lo = 0) as -> by lia. apply reps_done.
  - destruct x as [b s], y as [b' s']. destruct Ha as [Hs Hb']; simpl in *. subst s b'.
    destruct hi as [|hi]; [lia|].
    assert (Hstep : matches (Chars p) (b, c :: w ++ s') (c :: b, w ++ s')).
    { by exists c, (w ++ s'). }
    assert (Hrest : advances (c :: b, w ++ s') (reverse (c :: w) ++ b, s') w).
    { split; simpl; [done|]. by rewrite reverse_cons, <- app_assoc. }
    destruct lo as [|lo].
    + eapply reps_more; [done|exact Hstep|simpl; lia|].
      apply IH; [exact Hrest|lia].
    + eapply reps_must; [done|exact Hstep|].
      apply IH; [exact Hrest|lia].
Qed.

Lemma matches_counted (p : N -> bool) (lo hi : nat) (x y : pos) :
  lo <= hi ->
  matches (Quant lo (Some hi) (Chars p)) x y <->
  exists w, Forall (fun c => p c = true) w /\ lo <= length w <= hi /\ advances x y w.
Proof.
  intros Hlh. split.
  - intros H. apply reps_chars_bounds in H as (w & Hw & Ha & Hb & _).
    destruct (Hb hi eq_refl) as [H1 H2]. specialize (H2 Hlh).
    exists w. split; [done|]. split; [lia|done].
  - intros (w & Hw & Hb & Ha). by eapply reps_chars_intro.
Qed.

End PatternFacts.

(** ** More on the runtime data store *)

Module SessionFacts.
Import DataStore RegexFacts PatternFacts DataStoreFacts.

(** *** What a call can change *)

(** A call changes the dictionary only when it is an accepted [setValue],
    and then only at the element written. *)
Lemma perform_data (c : call) (s : store) :
  data (perform c s) = data s \/
  exists e v, c = SetValue e v /\ (e ∉ readOnlyElements) /\
              validateSCORMElement e v = true /\
              data (perform c s) = <[e := sanitizeValue v]> (data s).
Proof.
  destruct c as [| |e|e v|]; simpl;
    unfold initialize, terminate, getValue, setValue, commit.
  - left. by destruct (initialized s).
  - left. by destruct (initialized s).
  - left. by destruct (initialized s).
  - destruct (initialized s); simpl; [|by left].
    destruct (includes readOnlyElements e) eqn:Hro; [by left|].
    destruct (validateSCORMElement e v) eqn:Hv; simpl; [|by left].
    right. exists e, v. split; [done|]. split; [by apply includes_false|]. done.
  - left. by destruct (initialized s).
Qed.

(** X1.  No sequence of calls changes what the store holds for a read-only
    element. *)
Theorem run_keeps_read_only (cs : list call) (s : store) (e : jsstring) :
  e ∈ readOnlyElements -> data (run cs s) !! e = data s !! e.
Proof.
  intros He. revert s. induction cs as [|c cs IH]; intros s; simpl; [done|].
  rewrite IH.
  destruct (perform_data c s) as [->|(e' & v & _ & Hro & _ & ->)]; [done|].
  apply lookup_insert_ne. intros ->. done.
Qed.

Lemma run_keeps_read_only_witness :
  data (run [Initialize; SetValue (js "cmi.core.student_name") (js "Eve");
             SetValue (js "cmi.comments") (js "hi"); Terminate] (construct None None))
    !! js "cmi.core.student_name" = Some (js "Student").
Proof.
  rewrite (run_keeps_read_only _ (construct None None) (js "cmi.core.student_name")).
  - by vm_compute.
  - by vm_compute; right; left.
Defined.

(** X2.  An element keeps its value through every sequence of calls that
    has no [setValue] on that element. *)
Theorem run_frame (cs : list call) (s : store) (e : jsstring) :
  (forall v, SetValue e v ∉ cs) -> data (run cs s) !! e = data s !! e.
Proof.
  revert s. induction cs as [|c cs IH]; intros s Hcs; simpl; [done|].
  rewrite IH.
  - destruct (perform_data c s) as [->|(e' & v & -> & _ & _ & ->)]; [done|].
    apply lookup_insert_ne. intros ->. apply (Hcs v). by left.
  - intros v Hin. apply (Hcs v). by right.
Qed.

Lemma run_frame_witness :
  data (run [Initialize; SetValue (js "cmi.comments") (js "hi"); Commit] (construct None None))
    !! js "cmi.core.lesson_status" = Some (js "not attempted").
Proof.
  rewrite (run_frame _ (construct None None) (js "cmi.core.lesson_status")).
  - by vm_compute.
  - intros v Hin. repeat (apply elem_of_cons in Hin as [Hin|Hin]; [by inversion Hin|]).
    by apply elem_of_nil in Hin.
Defined.

(** *** The length bound *)

Lemma construct_bounded (userId courseId : option jsstring) :
  (forall u, userId = Some u -> length u <= 4096) ->
  bounded (construct userId courseId).
Proof.
  intros Hu e v Hl.
  change (data (construct userId courseId)) with
    (list_to_map (defaults userId) : gmap jsstring jsstring) in Hl.
  apply elem_of_list_to_map_2 in Hl. unfold defaults in Hl.
  apply elem_of_cons in Hl as [[= -> ->]|Hl].
  { destruct userId as [[|c u]|]; simpl; try lia. by apply (Hu (c :: u)). }
  repeat (apply elem_of_cons in Hl as [[= -> ->]|Hl]; [simpl; lia|]).
  by apply elem_of_nil in Hl.
Qed.

(** X3.  When every stored value is at most 4096 code units long, this
    stays so through every sequence of calls, and [getValue] never returns
    more than 4096 code units. *)
Theorem run_bounded (cs : list call) (s : store) :
  bounded s ->
  bounded (run cs s) /\
  forall e, length (getValue e (run cs s)).1 <= 4096.
Proof.
  intros Hs.
  assert (Hb : bounded (run cs s)).
  { revert s Hs. induction cs as [|c cs IH]; intros s Hs; simpl; [done|].
    apply IH. intros e v.
    destruct (perform_data c s) as [->|(e' & v' & _ & _ & _ & ->)]; [apply Hs|].
    destruct (decide (e' = e)) as [->|Hne].
    - rewrite lookup_insert_eq. intros [= <-]. apply sanitizeValue_length.
    - rewrite lookup_insert_ne by done. apply Hs. }
  split; [exact Hb|].
  intros e. unfold getValue. destruct (initialized (run cs s)); simpl; [|lia].
  destruct (data (run cs s) !! e) as [[|c v]|] eqn:E; simpl; try lia.
  apply Hb in E. exact E.
Qed.

Lemma run_bounded_witness :
  length (getValue (js "cmi.suspend_data")
            (run [Initialize; SetValue (js "cmi.suspend_data") (js "state")]
                 (construct None None))).1 <= 4096.
Proof.
  apply (run_bounded _ (construct None None)).
  apply construct_bounded. intros u Hu. discriminate Hu.
Defined.

(** *** Results and error codes *)

Lemma boolString_true (b : bool) : boolString b = js "true" <-> b = true.
Proof. destruct b; by vm_compute. Qed.

(** X4.  Through the API object, a call of [LMSInitialize], [LMSFinish],
    [LMSSetValue] or [LMSCommit] returns "true" exactly when
    [LMSGetLastError] is "0" afterwards, and returns "false" otherwise;
    after [LMSGetValue] the last error is "0" exactly when the store was
    Active. *)
Theorem api_result_matches_error (s : store) (param e v : jsstring) :
  ((LMSInitialize param s).1 = js "true" <->
     LMSGetLastError (LMSInitialize param s).2 = js "0") /\
  ((LMSFinish param s).1 = js "true" <->
     LMSGetLastError (LMSFinish param s).2 = js "0") /\
  ((LMSSetValue e v s).1 = js "true" <->
     LMSGetLastError (LMSSetValue e v s).2 = js "0") /\
  ((LMSCommit param s).1 = js "true" <->
     LMSGetLastError (LMSCommit param s).2 = js "0") /\
  (initialized s = true <-> LMSGetLastError (LMSGetValue e s).2 = js "0") /\
  Forall (fun r => r = js "true" \/ r = js "false")
         [(LMSInitialize param s).1; (LMSFinish param s).1;
          (LMSSetValue e v s).1; (LMSCommit param s).1].
Proof.
  unfold LMSInitialize, LMSFinish, LMSSetValue, LMSCommit, LMSGetValue, LMSGetLastError,
    getLastError, initialize, terminate, setValue, commit, getValue.
  destruct s as [d [|] c]; simpl.
  - destruct (includes readOnlyElements e); simpl;
      [|destruct (validateSCORMElement e v); simpl];
      repeat split; try (by vm_compute); try done;
      repeat constructor; by (left + right).
  - repeat split; try (by vm_compute); try done.
    repeat constructor; by (left + right).
Qed.

(** X5.  After any call the last error is one of "0", "101", "112", "403"
    and "405": the code "404" of the message table is never reported, and
    the message of the last error is never the fallback "Unknown error". *)
Theorem last_error_known (c : call) (s : store) :
  getLastError (perform c s) ∈ assignedCodes /\
  getLastError (perform c s) <> js "404" /\
  getErrorString (getLastError (perform c s)) <> js "Unknown error".
Proof.
  assert (H : getLastError (perform c s) ∈ assignedCodes).
  { unfold getLastError, assignedCodes.
    destruct c as [| |e|e v|]; simpl;
      unfold initialize, terminate, getValue, setValue, commit;
      destruct (initialized s); simpl;
      try destruct (includes readOnlyElements e); simpl;
      try destruct (validateSCORMElement e v); simpl;
      set_solver. }
  split; [exact H|].
  unfold assignedCodes in H.
  repeat (apply elem_of_cons in H as [->|H]; [by vm_compute|]).
  by apply elem_of_nil in H.
Qed.

(** X6.  [LMSFinish] commits and then terminates: it returns "true"
    exactly when the store was Active, it always leaves the store not
    initialized, and it keeps the stored elements. *)
Theorem LMSFinish_closes (param : jsstring) (s : store) :
  ((LMSFinish param s).1 = js "true" <-> initialized s = true) /\
  initialized (LMSFinish param s).2 = false /\
  data (LMSFinish param s).2 = data s /\
  (LMSInitialize param (LMSFinish param s).2).1 = js "true".
Proof.
  unfold LMSFinish, LMSInitialize, commit, terminate, initialize.
  destruct s as [d [|] c]; simpl; repeat split; try done; by vm_compute.
Qed.

(** *** Free-form elements and the earlier copy *)





(** *** What the sanitizer leaves alone *)

Lemma trimStart_fixed (s : jsstring) :
  trimStart s = s <-> s = [] \/ exists c s', s = c :: s' /\ isWhiteSpace c = false.
Proof.
  destruct s as [|c s']; simpl; [by split; [left|]|].
  destruct (isWhiteSpace c) eqn:E.
  - split.
    + intros H. pose proof (trimStart_length s') as Hl. rewrite H in Hl. simpl in Hl. lia.
    + intros [?|(c' & s'' & [= -> ->] & Hc)]; [done|congruence].
  - split; [|done]. intros _. right. by exists c, s'.
Qed.

Lemma trimStart_idem (s : jsstring) : trimStart (trimStart s) = trimStart s.
Proof.
  induction s as [|c s IH]; simpl; [done|].
  destruct (isWhiteSpace c) eqn:E; [done|]. simpl. by rewrite E.
Qed.

Lemma trimStart_drop (s : jsstring) : exists k, trimStart s = drop k s.
Proof.
  induction s as [|c s [k IH]]; simpl; [by exists 0|].
  destruct (isWhiteSpace c); [by exists (S k) | by exists 0].
Qed.

Lemma trimEnd_take (s : jsstring) : exists k, trimEnd s = take k s.
Proof.
  unfold trimEnd. destruct (trimStart_drop (reverse s)) as [k ->].
  rewrite reverse_drop, reverse_involutive. eauto.
Qed.

Lemma trimEnd_idem (s : jsstring) : trimEnd (trimEnd s) = trimEnd s.
Proof. unfold trimEnd. by rewrite reverse_involutive, trimStart_idem. Qed.

Lemma trim_idem (s : jsstring) : trim (trim s) = trim s.
Proof.
  unfold trim. set (t := trimStart s).
  assert (Ht : trimStart t = t) by apply trimStart_idem.
  destruct (trimEnd_take t) as [k Hk].
  assert (Hfix : trimStart (trimEnd t) = trimEnd t).
  { rewrite Hk. apply trimStart_fixed.
    apply trimStart_fixed in Ht as [->|(c & s' & -> & Hc)].
    - left. by destruct k.
    - destruct k; [by left|]. right. by exists c, (take k s'). }
  by rewrite Hfix, trimEnd_idem.
Qed.

Lemma trim_no_space (s : jsstring) :
  Forall (fun c => isWhiteSpace c = false) s -> trim s = s.
Proof.
  intros H.
  assert (Hstart : forall t, Forall (fun c => isWhiteSpace c = false) t -> trimStart t = t).
  { intros t Ht. apply trimStart_fixed. destruct Ht as [|c t' Hc _]; [by left|].
    right. by exists c, t'. }
  unfold trim, trimEnd. rewrite (Hstart s H), Hstart, reverse_involutive; [done|].
  by apply Forall_reverse.
Qed.

Lemma validate_length (element value : jsstring) :
  validateSCORMElement element value = true -> length value <= 4096.
Proof.
  unfold validateSCORMElement.
  destruct (Nat.ltb_spec 4096 (length value)); [done|lia].
Qed.

(** What an accepted write stores and the next read returns. *)
Lemma accepted_read (element value : jsstring) (s : store) :
  initialized s = true ->
  (setValue element value s).1 = true ->
  (getValue element (setValue element value s).2).1 = sanitizeValue value /\
  validateSCORMElement element value = true /\
  includes readOnlyElements element = false.
Proof.
  unfold setValue. intros ->. simpl.
  destruct (includes readOnlyElements element); [done|].
  destruct (validateSCORMElement element value); [|done].
  intros _. unfold getValue. simpl. by rewrite lookup_insert_eq, orElse_Some.
Qed.

(** A value the sanitizer returns unchanged contains no match of its
    patterns, is trimmed and fits the length limit. *)
Lemma sanitizeValue_unchanged_inv (v : jsstring) :
  sanitizeValue v = v ->
  scriptBearing v = false /\ trim v = v /\ length v <= 4096.
Proof.
  intros Heq.
  assert (Hsb : scriptBearing v = false).
  { destruct (scriptBearing v) eqn:E; [|done].
    apply sanitizeValue_shrinks in E. rewrite Heq in E. lia. }
  split; [done|].
  unfold scriptBearing in Hsb.
  apply orb_false_iff in Hsb as [Hsb H3]. apply orb_false_iff in Hsb as [H1 H2].
  unfold sanitizeValue, substring0 in Heq.
  rewrite (replaceAll_no_match _ _ _ H1), (replaceAll_no_match _ _ _ H2),
    (replaceAll_no_match _ _ _ H3) in Heq.
  pose proof (trim_length v) as Ht.
  assert (Hlen : length v <= 4096).
  { rewrite <- Heq at 1. rewrite length_take. lia. }
  rewrite take_ge in Heq by lia. done.
Qed.

(** Conversely, such a value passes through the sanitizer as it is. *)
Lemma sanitizeValue_unchanged (v : jsstring) :
  scriptBearing v = false -> trim v = v -> length v <= 4096 ->
  sanitizeValue v = v.
Proof.
  intros Hsb Ht Hlen.
  unfold scriptBearing in Hsb.
  apply orb_false_iff in Hsb as [Hsb H3]. apply orb_false_iff in Hsb as [H1 H2].
  unfold sanitizeValue, substring0.
  rewrite (replaceAll_no_match _ _ _ H1), (replaceAll_no_match _ _ _ H2),
    (replaceAll_no_match _ _ _ H3), Ht.
  by apply take_ge.
Qed.

(** X7.  The values the sanitizer returns unchanged are exactly those that
    contain no match of its three patterns, have no white space at either
    end and are at most 4096 code units long. *)
Theorem sanitizeValue_fixed_points (v : jsstring) :
  sanitizeValue v = v <->
  scriptBearing v = false /\ trim v = v /\ length v <= 4096.
Proof.
  split.
  - apply sanitizeValue_unchanged_inv.
  - intros (Hsb & Ht & Hlen). by apply sanitizeValue_unchanged.
Qed.

(** X12.  What an accepted write stores has no white space at either end;
    so a value that starts or ends with white space is accepted and read
    back changed. *)
Theorem stored_value_trimmed (element value : jsstring) (s : store) :
  initialized s = true ->
  (setValue element value s).1 = true ->
  trim (getValue element (setValue element value s).2).1
    = (getValue element (setValue element value s).2).1 /\
  (trim value <> value ->
   (getValue element (setValue element value s).2).1 <> value).
Proof.
  intros Hs Hok. destruct (accepted_read _ _ _ Hs Hok) as (-> & Hv & _).
  apply validate_length in Hv. split.
  - unfold sanitizeValue, substring0.
    set (u := replaceAll eventHandler (js "")
                (replaceAll scriptUri (js "") (replaceAll scriptBlock (js "") value))).
    assert (Hu : length u <= length value).
    { unfold u. change (js "") with (@nil N).
      pose proof (replaceAll_length eventHandler
        (replaceAll scriptUri [] (replaceAll scriptBlock [] value))).
      pose proof (replaceAll_length scriptUri (replaceAll scriptBlock [] value)).
      pose proof (replaceAll_length scriptBlock value). lia. }
    pose proof (trim_length u). rewrite take_ge by lia. apply trim_idem.
  - intros Hne Heq. apply sanitizeValue_unchanged_inv in Heq as (_ & Ht & _). done.
Qed.

Lemma stored_value_trimmed_witness :
  (getValue (js "cmi.suspend_data")
     (setValue (js "cmi.suspend_data") (js "page 3 ") activeStore).2).1
  <> js "page 3 ".
Proof.
  apply (stored_value_trimmed (js "cmi.suspend_data") (js "page 3 ") activeStore).
  - reflexivity.
  - by vm_compute.
  - by vm_compute.
Defined.

(** *** Time values *)

Lemma matches_unit (c : N) (x y : pos) :
  matches (Seq (chr c) Empty) x y <-> advances x y [c].
Proof.
  split.
  - intros (z & Hz & ->). apply matches_char in Hz as (c' & Hc & Ha).
    by apply N.eqb_eq in Hc as <-.
  - intros Ha. exists y. split; [|done]. apply matches_char.
    exists c. split; [apply N.eqb_refl | done].
Qed.

Lemma seq_intro (r1 r2 : regex) (b w s : list N) (y : pos) :
  matches r1 (b, w ++ s) (reverse w ++ b, s) ->
  matches r2 (reverse w ++ b, s) y ->
  matches (Seq r1 r2) (b, w ++ s) y.
Proof. intros H1 H2. by exists (reverse w ++ b, s). Qed.

Lemma counted_intro (p : N -> bool) (lo hi : nat) (b w s : list N) :
  lo <= hi -> Forall (fun c => p c = true) w -> lo <= length w <= hi ->
  matches (Quant lo (Some hi) (Chars p)) (b, w ++ s) (reverse w ++ b, s).
Proof.
  intros Hlh Hw Hb. apply matches_counted; [done|].
  exists w. split; [done|]. split; [done|]. apply advances_intro.
Qed.

(** The time pattern accepts exactly the strings of the time shape. *)
Lemma test_timePattern (v : jsstring) :
  test timePattern v = true <-> timeValue v.
Proof.
  rewrite test_true. unfold timeValue, digits.
  change timePattern with
    (Seq Bol (Seq (Quant 2 (Some 4) (Chars isDigit)) (Seq (Seq (chr 58) Empty)
      (Seq (Quant 2 (Some 2) (Chars isDigit)) (Seq (Seq (chr 58) Empty)
        (Seq (Quant 2 (Some 2) (Chars isDigit))
          (Seq (opt (Seq (Seq (chr 46) Empty) (Quant 1 (Some 2) (Chars isDigit))))
               Eol))))))).
  change (js ":") with [58%N]. change (js ".") with [46%N].
  split.
  - intros (pre & suf & y & -> & H).
    destruct H as (z1 & [-> Hb] & z2 & H2 & z3 & H3 & z4 & H4 & z5 & H5 & z6 & H6
                   & z7 & H7 & -> & He).
    simpl in Hb. apply (f_equal length) in Hb. rewrite length_reverse in Hb.
    destruct pre; [|done]. simpl.
    apply matches_counted in H2 as (h & Hh & Hhl & [A2 _]); [|lia].
    apply matches_unit in H3 as [A3 _].
    apply matches_counted in H4 as (mi & Hmi & Hmil & [A4 _]); [|lia].
    apply matches_unit in H5 as [A5 _].
    apply matches_counted in H6 as (se & Hse & Hsel & [A6 _]); [|lia].
    simpl in A2.
    assert (Hfr : exists fr, z6.2 = fr /\
              (fr = [] \/ exists d, fr = [46%N] ++ d /\
                 Forall (fun c => isDigit c = true) d /\ 1 <= length d <= 2)).
    { apply reps_opt in H7 as [->|[(z & Hz & Hd) _]].
      - exists []. split; [done | by left].
      - apply matches_unit in Hz as [Az _].
        apply matches_counted in Hd as (d & Hd & Hdl & [Ad _]); [|lia].
        exists ([46%N] ++ d). split.
        + by rewrite Az, Ad, He, app_nil_r.
        + right. by exists d. }
    destruct Hfr as (fr & Hz6 & Hfr).
    exists h, mi, se, fr. split.
    { by rewrite A2, A3, A4, A5, A6, Hz6. }
    repeat split; try done; lia.
  - intros (h & mi & se & fr & -> & Hh & Hhl & Hmi & Hmil & Hse & Hsel & Hfr).
    exists [], (h ++ [58%N] ++ mi ++ [58%N] ++ se ++ fr).
    assert (Htail : exists y,
      matches (Seq (opt (Seq (Seq (chr 46) Empty) (Quant 1 (Some 2) (Chars isDigit)))) Eol)
        (reverse se ++ reverse [58%N] ++ reverse mi ++ reverse [58%N] ++ reverse h ++ [],
         fr) y).
    { set (B := reverse se ++ reverse [58%N] ++ reverse mi ++ reverse [58%N]
                  ++ reverse h ++ []).
      destruct Hfr as [->|(d & -> & Hd & Hdl)].
      - exists (B, []), (B, []). split; [apply reps_done | done].
      - exists (reverse d ++ reverse [46%N] ++ B, []),
               (reverse d ++ reverse [46%N] ++ B, []).
        split; [|done]. apply reps_opt. right. split.
        + change (matches (Seq (Seq (chr 46) Empty) (Quant 1 (Some 2) (Chars isDigit)))
                    (B, [46%N] ++ d) (reverse d ++ reverse [46%N] ++ B, [])).
          apply (seq_intro _ _ B [46%N] d);
            [apply matches_unit, (advances_intro B [46%N] d)|].
          pose proof (counted_intro isDigit 1 2 (reverse [46%N] ++ B) d []) as Hc.
          rewrite app_nil_r in Hc. apply Hc; [lia|done|lia].
        + simpl. lia. }
    destruct Htail as [y Hy]. exists y. split; [done|].
    exists ([], h ++ [58%N] ++ mi ++ [58%N] ++ se ++ fr). split; [done|].
    apply seq_intro; [apply counted_intro; [lia|done|lia]|].
    apply seq_intro; [apply matches_unit, advances_intro|].
    apply seq_intro; [apply counted_intro; [lia|done|lia]|].
    apply seq_intro; [apply matches_unit, advances_intro|].
    apply seq_intro; [apply counted_intro; [lia|done|lia]|].
    exact Hy.
Qed.

(** X9.  On an Active store, [setValue] on [cmi.core.session_time]
    accepts a value iff it has the time shape: 2 to 4 digits, [:], 2
    digits, [:], 2 digits, then nothing or [.] and 1 or 2 digits.  The
    digits are not bounded: a minute or second field above 59 passes. *)
Theorem setValue_session_time (value : jsstring) (s : store) :
  initialized s = true ->
  (setValue (js "cmi.core.session_time") value s).1 = true <-> timeValue value.
Proof.
  intros Hs. rewrite <- test_timePattern.
  unfold setValue, validateSCORMElement. rewrite Hs. simpl. closed_tests. simpl.
  destruct (Nat.ltb_spec 4096 (length value)) as [Hl|Hl]; simpl.
  - split; [done|]. intros Ht. apply test_timePattern in Ht.
    destruct Ht as (h & mi & se & fr & -> & _ & Hhl & _ & Hmil & _ & Hsel & Hfr).
    change (js ":") with [58%N] in Hl. change (js ".") with [46%N] in Hfr.
    destruct Hfr as [->|(d & -> & _ & Hdl)];
      repeat (rewrite length_app in Hl; simpl in Hl); lia.
  - by destruct (test timePattern value).
Qed.

Lemma setValue_session_time_witness :
  timeValue (js "250:61:00").
Proof.
  apply (setValue_session_time (js "250:61:00") activeStore eq_refl).
  by vm_compute.
Defined.

(** *** Typed values are stored as written *)

Lemma plain_cases (c : N) :
  plain c = true ->
  c ∈ [45; 46; 47; 48; 49; 50; 51; 52; 53; 54; 55; 56; 57; 58]%N.
Proof.
  unfold plain, in_range. intros H. apply andb_true_iff in H as [H1 H2].
  apply N.leb_le in H1, H2.
  assert (Hc : (c = 45 \/ c = 46 \/ c = 47 \/ c = 48 \/ c = 49 \/ c = 50 \/ c = 51 \/
                c = 52 \/ c = 53 \/ c = 54 \/ c = 55 \/ c = 56 \/ c = 57 \/ c = 58)%N)
    by lia.
  repeat (destruct Hc as [->|Hc]; [apply list_elem_of_In; simpl; tauto|]).
  subst c. apply list_elem_of_In; simpl; tauto.
Qed.

Lemma plain_digit (c : N) : isDigit c = true -> plain c = true.
Proof.
  unfold isDigit, plain, in_range. intros H. apply andb_true_iff in H as [H1 H2].
  apply N.leb_le in H1, H2. apply andb_true_iff. split; apply N.leb_le; lia.
Qed.

(** A string of such code units has no white space and no match of the
    sanitizer's patterns. *)
Lemma plain_untouched (v : jsstring) :
  Forall (fun c => plain c = true) v -> length v <= 4096 -> sanitizeValue v = v.
Proof.
  intros Hp Hl.
  cut (scriptBearing v = false /\ trim v = v /\ length v <= 4096).
  { intros (? & ? & ?). by apply sanitizeValue_unchanged. }
  assert (Hcases : Forall (fun c => c ∈ [45; 46; 47; 48; 49; 50; 51; 52; 53; 54; 55;
                                          56; 57; 58]%N) v).
  { eapply Forall_impl; [exact Hp|]. intros c. apply plain_cases. }
  assert (Hfirst : forall r p, leading r = Some p ->
            (forall c, c ∈ [45; 46; 47; 48; 49; 50; 51; 52; 53; 54; 55; 56; 57; 58]%N ->
                       p c = false) ->
            test r v = false).
  { intros r p Hr Hcs. apply (test_without_leading r p v Hr).
    eapply Forall_impl; [exact Hcases|]. intros c. apply Hcs. }
  assert (Hdec : forall (P : N -> Prop) c,
            P 45%N -> P 46%N -> P 47%N -> P 48%N -> P 49%N -> P 50%N -> P 51%N ->
            P 52%N -> P 53%N -> P 54%N -> P 55%N -> P 56%N -> P 57%N -> P 58%N ->
            c ∈ [45; 46; 47; 48; 49; 50; 51; 52; 53; 54; 55; 56; 57; 58]%N ->
            P c).
  { intros p c ? ? ? ? ? ? ? ? ? ? ? ? ? ? Hc.
    repeat (apply elem_of_cons in Hc as [->|Hc]; [done|]). by apply elem_of_nil in Hc. }
  split; [|split; [|done]].
  - unfold scriptBearing.
    rewrite (Hfirst scriptBlock _ eq_refl), (Hfirst scriptUri _ eq_refl),
      (Hfirst eventHandler _ eq_refl); [done| | |];
      intros c Hc; pattern c; apply (Hdec _ c); try exact Hc; by vm_compute.
  - apply trim_no_space. eapply Forall_impl; [exact Hcases|].
    intros c Hc. pattern c. apply (Hdec _ c); try exact Hc; by vm_compute.
Qed.

Lemma signedDecimal_plain (v : jsstring) :
  signedDecimal v -> Forall (fun c => plain c = true) v.
Proof.
  intros (sign & int & dot & frac & -> & Hsign & Hint & Hdot & Hfrac).
  repeat apply Forall_app_2.
  - destruct Hsign as [->| ->]; by repeat constructor.
  - eapply Forall_impl; [exact Hint | apply plain_digit].
  - destruct Hdot as [->| ->]; by repeat constructor.
  - eapply Forall_impl; [exact Hfrac | apply plain_digit].
Qed.

Lemma timeValue_plain (v : jsstring) :
  timeValue v -> Forall (fun c => plain c = true) v.
Proof.
  intros (h & mi & se & fr & -> & Hh & _ & Hmi & _ & Hse & _ & Hfr).
  assert (Hd : forall w, digits w -> Forall (fun c => plain c = true) w).
  { intros w Hw. eapply Forall_impl; [exact Hw | apply plain_digit]. }
  repeat apply Forall_app_2; try (by apply Hd); try (by repeat constructor).
  destruct Hfr as [->|(d & -> & Hdd & _)]; [constructor|].
  apply Forall_app_2; [by repeat constructor | by apply Hd].
Qed.

(** X8.  On an Active store, a value accepted for one of the elements
    with a vocabulary or a pattern (lesson status, exit, the three scores,
    session time) is stored as written: the read that follows returns
    exactly that value. *)
Theorem typed_values_verbatim (element value : jsstring) (s : store) :
  initialized s = true ->
  element ∈ typedElements ->
  (setValue element value s).1 = true ->
  (getValue element (setValue element value s).2).1 = value.
Proof.
  intros Hs He Hok. destruct (accepted_read _ _ _ Hs Hok) as (-> & Hv & _).
  pose proof (validate_length _ _ Hv) as Hlen.
  unfold validateSCORMElement in Hv.
  destruct (4096 <? length value); [done|].
  unfold typedElements in He.
  apply elem_of_cons in He as [->|He].
  { revert Hv. closed_tests. simpl. intros Hv. apply includes_true in Hv.
    repeat (apply elem_of_cons in Hv as [->|Hv]; [by vm_compute|]).
    by apply elem_of_nil in Hv. }
  apply elem_of_cons in He as [->|He].
  { revert Hv. closed_tests. simpl. intros Hv. apply includes_true in Hv.
    repeat (apply elem_of_cons in Hv as [->|Hv]; [by vm_compute|]).
    by apply elem_of_nil in Hv. }
  do 3 (apply elem_of_cons in He as [->|He];
        [revert Hv; closed_tests; simpl; intros Hv;
         apply andb_true_iff in Hv as [Hv _]; apply test_scorePattern in Hv;
         by apply plain_untouched; [apply signedDecimal_plain|]|]).
  apply elem_of_cons in He as [->|He]; [|by apply elem_of_nil in He].
  revert Hv. closed_tests. simpl. intros Hv. apply test_timePattern in Hv.
  by apply plain_untouched; [apply timeValue_plain|].
Qed.

Lemma typed_values_verbatim_witness :
  (getValue (js "cmi.core.score.raw")
     (setValue (js "cmi.core.score.raw") (js "87.5") activeStore).2).1 = js "87.5".
Proof.
  apply (typed_values_verbatim (js "cmi.core.score.raw") (js "87.5") activeStore).
  - reflexivity.
  - apply includes_true. by vm_compute.
  - by vm_compute.
Defined.

End SessionFacts.

(** ** Resolution of item references *)

Module ResolverFacts.
Import ManifestFacts.

Lemma resourceMap_snoc (rs : list SCORMResource) (r : SCORMResource) :
  resourceMap (rs ++ [r]) = <[resIdentifier r := r]> (resourceMap rs).
Proof. unfold resourceMap. by rewrite foldl_app. Qed.

(** The map holds, for an identifier, the last resource that carries it. *)
Lemma resourceMap_lookup (rs : list SCORMResource) (i : jsstring) :
  resourceMap rs !! i
  = List.find (fun r => bool_decide (resIdentifier r = i)) (reverse rs).
Proof.
  induction rs as [|r rs IH] using rev_ind; [done|].
  rewrite resourceMap_snoc, reverse_app. simpl.
  destruct (decide (resIdentifier r = i)) as [Heq|Hne].
  - by rewrite bool_decide_eq_true_2, Heq, lookup_insert_eq.
  - by rewrite bool_decide_eq_false_2, lookup_insert_ne.
Qed.

Lemma resourceMap_elem (rs : list SCORMResource) (i : jsstring) (r : SCORMResource) :
  resourceMap rs !! i = Some r -> r ∈ rs /\ resIdentifier r = i.
Proof.
  rewrite resourceMap_lookup. intros H. apply find_some in H as [Hin Hid].
  split.
  - apply elem_of_reverse. by apply list_elem_of_In.
  - by apply bool_decide_eq_true in Hid.
Qed.

Lemma resourceMap_none (rs : list SCORMResource) (i : jsstring) :
  (forall r, r ∈ rs -> resIdentifier r <> i) -> resourceMap rs !! i = None.
Proof.
  intros H. destruct (resourceMap rs !! i) as [r|] eqn:E; [|done].
  apply resourceMap_elem in E as [Hin Hid]. by destruct (H r Hin).
Qed.

(** X13.  Resolution of one item: a non-empty reference that is the
    identifier of a resource becomes the entry href of the last resource
    with that identifier; a missing or empty reference, and a reference
    that names no resource, stay as they are. *)
Theorem resolveItem_href (rs : list SCORMResource) (item : SCORMItem) :
  (forall h before r after,
     href item = Some h -> h <> [] ->
     rs = before ++ [r] ++ after -> resIdentifier r = h ->
     (forall r', r' ∈ after -> resIdentifier r' <> h) ->
     href (resolveItem (resourceMap rs) item) = Some (resHref r)) /\
  (truthy (href item) = false ->
     href (resolveItem (resourceMap rs) item) = href item) /\
  (forall h, href item = Some h ->
     (forall r, r ∈ rs -> resIdentifier r <> h) ->
     href (resolveItem (resourceMap rs) item) = Some h).
Proof.
  destruct item as [i t hr v cs]. simpl. split; [|split].
  - intros h before r after -> Hh -> Hid Hafter.
    destruct h as [|c h]; [done|]. simpl.
    rewrite resourceMap_lookup, !reverse_app. simpl.
    rewrite reverse_cons, <- !app_assoc.
    rewrite PackageStoreFacts.find_app_None; [simpl; by rewrite bool_decide_eq_true_2|].
    destruct (List.find _ (reverse after)) as [r'|] eqn:E; [|done].
    apply find_some in E as [Hin Hid'].
    apply bool_decide_eq_true in Hid'. destruct (Hafter r'); [|done].
    apply elem_of_reverse. by apply list_elem_of_In.
  - destruct hr as [[|c h]|]; simpl; done.
  - intros h -> Hnone. destruct h as [|c h]; simpl; [done|].
    by rewrite resourceMap_none.
Qed.

Lemma resolveItem_href_witness :
  href (resolveItem (resourceMap (resources referencingManifest))
          {| identifier := js "I1"; title := js "One"; href := Some (js "R1");
             isVisible := true; children := [] |})
  = Some (js "new.html").
Proof.
  apply (proj1 (resolveItem_href (resources referencingManifest) _) (js "R1")
           [ {| resIdentifier := js "R1"; resType := js "webcontent";
                resHref := js "old.html"; resFiles := [] |};
             {| resIdentifier := js "R2"; resType := js "webcontent";
                resHref := js ""; resFiles := [] |} ]
           {| resIdentifier := js "R1"; resType := js "webcontent";
              resHref := js "new.html"; resFiles := [] |} []);
    try reflexivity.
  - by vm_compute.
  - intros r' Hin. by apply elem_of_nil in Hin.
Defined.

(** *** The shape of the tree *)

Lemma flat_map_resolve (rm : gmap jsstring SCORMResource) (cs : list SCORMItem) :
  Forall (fun c => preorder (resolveItem rm c) = List.map (resolveItem rm) (preorder c)) cs ->
  flat_map preorder (List.map (resolveItem rm) cs)
  = List.map (resolveItem rm) (flat_map preorder cs).
Proof.
  induction 1 as [|c cs Hc _ IH]; simpl; [done|].
  by rewrite Hc, IH, List.map_app.
Qed.

(** The pre-order listing of a resolved tree is the resolved pre-order
    listing. *)
Lemma preorder_resolve (rm : gmap jsstring SCORMResource) (item : SCORMItem) :
  preorder (resolveItem rm item) = List.map (resolveItem rm) (preorder item).
Proof.
  induction item as [i t h v cs IH] using SCORMItem_forall_ind.
  change (preorder (resolveItem rm (Item i t h v cs)))
    with (resolveItem rm (Item i t h v cs)
          :: flat_map preorder (List.map (resolveItem rm) cs)).
  change (preorder (Item i t h v cs)) with (Item i t h v cs :: flat_map preorder cs).
  simpl List.map. f_equal. by apply flat_map_resolve.
Qed.

Lemma preorderAll_resolve (m : SCORMManifest) :
  preorderAll (resolveItemResources m)
  = List.map (resolveItem (resourceMap (resources m))) (preorderAll m).
Proof.
  unfold preorderAll, resolveItemResources. simpl.
  induction (organizations m) as [|o os IH]; simpl; [done|].
  rewrite !flat_map_app, List.map_app, IH. f_equal.
  apply flat_map_resolve, Forall_forall. intros c _. apply preorder_resolve.
Qed.

(** X14.  Resolution keeps the shape of the course: the items in pre-order
    have the same identifiers, titles and visibility as before, and the
    manifest keeps its identifier, version, resources, default organization
    and the identifiers and titles of its organizations. *)
Theorem resolveItemResources_shape (m : SCORMManifest) :
  List.map identifier (preorderAll (resolveItemResources m))
    = List.map identifier (preorderAll m) /\
  List.map title (preorderAll (resolveItemResources m))
    = List.map title (preorderAll m) /\
  List.map isVisible (preorderAll (resolveItemResources m))
    = List.map isVisible (preorderAll m) /\
  List.map (fun i => length (children i)) (preorderAll (resolveItemResources m))
    = List.map (fun i => length (children i)) (preorderAll m) /\
  resources (resolveItemResources m) = resources m /\
  manifestIdentifier (resolveItemResources m) = manifestIdentifier m /\
  version (resolveItemResources m) = version m /\
  defaultOrganization (resolveItemResources m) = defaultOrganization m /\
  List.map orgIdentifier (organizations (resolveItemResources m))
    = List.map orgIdentifier (organizations m) /\
  List.map orgTitle (organizations (resolveItemResources m))
    = List.map orgTitle (organizations m).
Proof.
  rewrite preorderAll_resolve, !List.map_map.
  repeat split; try (apply List.map_ext; by intros [i t h v cs]).
  - apply List.map_ext. intros [i t h v cs]. simpl. by rewrite length_map.
  - unfold resolveItemResources. simpl. rewrite List.map_map. by apply List.map_ext.
  - unfold resolveItemResources. simpl. rewrite List.map_map. by apply List.map_ext.
Qed.

(** *** The play-list after resolution *)






(** The referencing manifest loses the item whose resource has no entry
    href. *)
Lemma resolved_playlist_drops :
  List.map identifier (getPlayableItems referencingManifest)
    = [js "I1"; js "I2"; js "I3"] /\
  List.map identifier (getPlayableItems (resolveItemResources referencingManifest))
    = [js "I1"; js "I3"] /\
  List.map href (getPlayableItems (resolveItemResources referencingManifest))
    = [Some (js "new.html"); Some (js "page.html")].
Proof. by vm_compute. Qed.

(** *** Resolving twice *)




End ResolverFacts.

(** ** More on the package store *)

Module StorageFacts.
Import PackageStore PackageStoreFacts.

(** *** Member files *)

Lemma packagePathIndex_eqb (r : FileRecord) (pid fp : jsstring) :
  keyEqb (packagePathIndex r) (KArray [KString pid; KString fp]) = true
  <-> packageId r = pid /\ path r = fp.
Proof.
  unfold packagePathIndex. simpl. rewrite andb_true_r, andb_true_iff.
  by rewrite !bool_decide_eq_true.
Qed.

Lemma packageIdIndex_eqb (r : FileRecord) (pid : jsstring) :
  keyEqb (packageIdIndex r) (KString pid) = true <-> packageId r = pid.
Proof. unfold packageIdIndex. simpl. by rewrite bool_decide_eq_true. Qed.

Lemma rowsOf_elem (p : SCORMPackage) (r : FileRecord) :
  r ∈ rowsOf p <-> packageId r = id p /\ files p !! path r = Some (blob r).
Proof.
  unfold rowsOf. rewrite list_elem_of_In, in_map_iff. split.
  - intros ([f b] & <- & Hin). simpl. split; [done|].
    apply list_elem_of_In in Hin. by apply elem_of_map_to_list in Hin.
  - intros [Hid Hf]. exists (path r, blob r). split.
    + destruct r as [i f b]. simpl in *. by subst i.
    + apply list_elem_of_In. by apply elem_of_map_to_list.
Qed.

(** X17.  [getPackageFile] never returns a payload.  It queries the index
    on [packageId], whose keys are strings, with an array key, so no row
    matches: on a working primary tier it resolves to [null] whatever the
    store holds, even for a file that [storePackage] has just written and
    that the [packagePath] index does find. *)
Theorem getPackageFile_never_finds (pid filePath : jsstring) (st : Storage) :
  (forall b, getPackageFile pid filePath st <> Resolved (Some b)) /\
  (forall db, indexedDB st = Working db ->
              getPackageFile pid filePath st = Resolved None) /\
  (forall db p b,
     indexedDB st = Working db ->
     (forall r, r ∈ fileRows db -> packageId r <> id p) ->
     files p !! filePath = Some b ->
     indexGet packagePathIndex (KArray [KString (id p); KString filePath])
       match indexedDB (storePackage p st) with
       | Working db' => fileRows db'
       | _ => []
       end
     = Some {| packageId := id p; path := filePath; blob := b |} /\
     getPackageFile (id p) filePath (storePackage p st) = Resolved None).
Proof.
  assert (Hnone : forall rows k1 k2,
            indexGet packageIdIndex (KArray [KString k1; KString k2]) rows = None).
  { intros rows k1 k2. unfold indexGet. by induction rows. }
  split; [|split].
  - intros b. unfold getPackageFile.
    destruct (indexedDB st); try done. by rewrite Hnone.
  - intros db Hdb. unfold getPackageFile. by rewrite Hdb, Hnone.
  - intros db p b Hdb Hfresh Hfile. split.
    + unfold storePackage. rewrite Hdb. simpl. fold (rowsOf p). unfold indexGet.
      rewrite find_app_None.
      * destruct (List.find _ (rowsOf p)) as [r|] eqn:E.
        -- apply find_some in E as [Hin Hkey].
           apply packagePathIndex_eqb in Hkey as [Hid Hpath].
           apply list_elem_of_In, rowsOf_elem in Hin as [_ Hb].
           rewrite Hpath, Hfile in Hb. destruct r as [i f b']. simpl in *.
           by inversion Hb; subst.
        -- exfalso.
           assert (Hin : {| packageId := id p; path := filePath; blob := b |} ∈ rowsOf p)
             by (by apply rowsOf_elem).
           apply list_elem_of_In in Hin.
           pose proof (find_none _ _ E _ Hin) as Hk.
           assert (keyEqb (packagePathIndex
                     {| packageId := id p; path := filePath; blob := b |})
                     (KArray [KString (id p); KString filePath]) = true)
             by (by apply packagePathIndex_eqb).
           congruence.
      * destruct (List.find _ (fileRows db)) as [r|] eqn:E; [|done].
        apply find_some in E as [Hin Hkey].
        apply packagePathIndex_eqb in Hkey as [Hid _].
        destruct (Hfresh r); [by apply list_elem_of_In | done].
    + unfold getPackageFile, storePackage. rewrite Hdb. simpl. by rewrite Hnone.
Qed.

Lemma getPackageFile_never_finds_witness :
  indexGet packagePathIndex (KArray [KString (js "scorm_1_abc"); KString (js "a.html")])
    match indexedDB (storePackage examplePackage emptyStorage) with
    | Working db' => fileRows db'
    | _ => []
    end
  = Some {| packageId := js "scorm_1_abc"; path := js "a.html";
            blob := js "<html></html>" |} /\
  getPackageFile (js "scorm_1_abc") (js "a.html")
    (storePackage examplePackage emptyStorage) = Resolved None.
Proof.
  apply (proj2 (proj2 (getPackageFile_never_finds (js "scorm_1_abc") (js "a.html")
                         emptyStorage)) emptyDatabase examplePackage).
  - reflexivity.
  - intros r Hr. by apply elem_of_nil in Hr.
  - by vm_compute.
Defined.

(** *** Store, look up, list, delete *)

Lemma filter_excluded {A : Type} (f : A -> bool) (l : list A) :
  List.filter f (List.filter (fun x => negb (f x)) l) = [].
Proof.
  induction l as [|x l IH]; simpl; [done|].
  destruct (f x) eqn:E; simpl; [done|]. by rewrite E.
Qed.

Lemma filter_disjoint {A : Type} (f g : A -> bool) (l : list A) :
  (forall x, g x = true -> f x = false) ->
  List.filter g (List.filter (fun x => negb (f x)) l) = List.filter g l.
Proof.
  intros H. induction l as [|x l IH]; simpl; [done|].
  destruct (f x) eqn:E; simpl.
  - destruct (g x) eqn:E'; [|done]. apply H in E'. congruence.
  - by rewrite IH.
Qed.



(** X19.  On a working primary tier, after [deletePackage] the package is
    no longer found by id and no file row of it is left; other packages and
    their file rows are untouched.  The degraded tier is not touched
    either: a catalog entry kept there survives the deletion. *)
Theorem deletePackage_working (pid : jsstring) (st : Storage) (db : Database) :
  indexedDB st = Working db ->
  exists db',
    indexedDB (deletePackage pid st) = Working db' /\
    getPackageById pid (deletePackage pid st) = Resolved None /\
    indexGetAll packageIdIndex (KString pid) (fileRows db') = [] /\
    (forall q, q <> pid ->
       getPackageById q (deletePackage pid st) = getPackageById q st /\
       indexGetAll packageIdIndex (KString q) (fileRows db')
         = indexGetAll packageIdIndex (KString q) (fileRows db)) /\
    localStorage (deletePackage pid st) = localStorage st.
Proof.
  intros Hdb. unfold deletePackage, getPackageById. rewrite Hdb.
  cbn [indexedDB localStorage packages fileRows].
  eexists. split; [done|]. cbn [packages fileRows]. rewrite lookup_delete_eq.
  split; [done|]. split; [|split; [|done]].
  - apply (filter_excluded (fun r => keyEqb (packageIdIndex r) (KString pid))).
  - intros q Hq. split; [by rewrite lookup_delete_ne|].
    apply (filter_disjoint (fun r => keyEqb (packageIdIndex r) (KString pid))
                           (fun r => keyEqb (packageIdIndex r) (KString q))).
    intros r Hr. apply packageIdIndex_eqb in Hr.
    destruct (keyEqb (packageIdIndex r) (KString pid)) eqn:E; [|done].
    apply packageIdIndex_eqb in E. congruence.
Qed.

Lemma deletePackage_working_witness :
  getPackageById (js "scorm_1_abc")
    (deletePackage (js "scorm_1_abc") (storePackage examplePackage emptyStorage))
  = Resolved None.
Proof.
  destruct (deletePackage_working (js "scorm_1_abc")
              (storePackage examplePackage emptyStorage)
              {| packages := <[js "scorm_1_abc" := metadata examplePackage]> ∅;
                 fileRows := rowsOf examplePackage |} eq_refl)
    as (db' & _ & H & _).
  exact H.
Defined.

Lemma find_filter_other (pid q : jsstring) (l : list PackageData) :
  q <> pid ->
  List.find (fun d => bool_decide (dataId d = q))
            (List.filter (fun pkg => negb (bool_decide (dataId pkg = pid))) l)
  = List.find (fun d => bool_decide (dataId d = q)) l.
Proof.
  intros Hq. induction l as [|d l IH]; simpl; [done|].
  destruct (decide (dataId d = pid)) as [Hd|Hd].
  - rewrite (bool_decide_eq_true_2 _ Hd). simpl.
    rewrite bool_decide_eq_false_2 by congruence. done.
  - rewrite (bool_decide_eq_false_2 _ Hd). simpl. by rewrite IH.
Qed.

Lemma find_filter_same (pid : jsstring) (l : list PackageData) :
  List.find (fun d => bool_decide (dataId d = pid))
            (List.filter (fun pkg => negb (bool_decide (dataId pkg = pid))) l) = None.
Proof.
  induction l as [|d l IH]; simpl; [done|].
  destruct (decide (dataId d = pid)) as [Hd|Hd].
  - by rewrite (bool_decide_eq_true_2 _ Hd).
  - rewrite (bool_decide_eq_false_2 _ Hd). simpl.
    by rewrite (bool_decide_eq_false_2 _ Hd).
Qed.

(** X20.  When the primary tier cannot be opened, [deletePackage] removes
    from the degraded tier every catalog entry of that id and keeps the
    others: afterwards the package is not found by id, and every other id is
    found as before.  The primary tier is left as it is. *)
Theorem deletePackage_degraded (pid : jsstring) (st : Storage) :
  indexedDB st = Unavailable ->
  indexedDB (deletePackage pid st) = Unavailable /\
  getPackageById pid (deletePackage pid st) = Resolved None /\
  (forall q, q <> pid ->
     getPackageById q (deletePackage pid st) = getPackageById q st) /\
  (forall d, d ∈ localStorage (deletePackage pid st) <->
             d ∈ localStorage st /\ dataId d <> pid).
Proof.
  intros Hdb. unfold deletePackage, getPackageById, getStoredPackageList.
  rewrite Hdb. simpl. split; [done|]. split; [|split].
  - by rewrite find_filter_same.
  - intros q Hq. by rewrite find_filter_other.
  - intros d. rewrite !list_elem_of_In, filter_In, negb_true_iff.
    by rewrite bool_decide_eq_false.
Qed.

Lemma deletePackage_degraded_witness :
  getPackageById (js "scorm_1_abc")
    (deletePackage (js "scorm_1_abc") (unavailable degradedWrite)) = Resolved None.
Proof.
  apply (deletePackage_degraded (js "scorm_1_abc") (unavailable degradedWrite) eq_refl).
Defined.

(** A package written to the degraded tier while the primary tier failed
    outlives a deletion done once the primary tier works again, and shows
    up again when the primary tier is unavailable. *)
Lemma degraded_entry_outlives_delete :
  getPackageById (js "scorm_1_abc")
    (unavailable (deletePackage (js "scorm_1_abc") (recovered degradedWrite)))
  = Resolved (Some (revive (metadata examplePackage))).
Proof. by vm_compute. Qed.

(** X21.  [getStoredPackages] lists, on a working primary tier, exactly the
    records of the primary tier, each once and without files, whatever the
    degraded tier holds; when the primary tier cannot be opened it lists the
    catalog of the degraded tier in its order. *)
Theorem getStoredPackages_lists (st : Storage) :
  (forall db, indexedDB st = Working db ->
     exists l, getStoredPackages st = Resolved l /\
       (forall p, p ∈ l <-> exists k d, packages db !! k = Some d /\ p = revive d) /\
       length l = base.size (packages db) /\
       Forall (fun p => files p = ∅) l) /\
  (indexedDB st = Unavailable ->
     getStoredPackages st = Resolved (List.map revive (localStorage st))).
Proof.
  unfold getStoredPackages, getStoredPackageList. split.
  - intros db ->. eexists. split; [done|].
    pose proof (merge_sort_Permutation keyOrder (map_to_list (packages db))) as Hperm.
    split; [|split].
    + intros p. rewrite list_elem_of_In, in_map_iff. split.
      * intros ([k d] & <- & Hin). exists k, d. split; [|done].
        apply list_elem_of_In in Hin. rewrite Hperm in Hin.
        by apply elem_of_map_to_list in Hin.
      * intros (k & d & Hkd & ->). exists (k, d). split; [done|].
        apply list_elem_of_In. rewrite Hperm. by apply elem_of_map_to_list.
    + rewrite length_map, Hperm. apply length_map_to_list.
    + apply Forall_forall. intros p Hp.
      apply list_elem_of_In, in_map_iff in Hp as ([k d] & <- & _). done.
  - by intros ->.
Qed.

Lemma getStoredPackages_lists_witness :
  getStoredPackages (unavailable degradedWrite)
  = Resolved [revive (metadata examplePackage)].
Proof.
  rewrite (proj2 (getStoredPackages_lists (unavailable degradedWrite)) eq_refl).
  by vm_compute.
Defined.

(** *** A successful upload *)






End StorageFacts.

(** ** The player *)

Module PlayerFacts.
Import Player PackageStore DataStore RegexFacts DataStoreFacts SessionFacts.

(** Linear arithmetic with division and remainder by constants. *)
Ltac dlia := zify; Z.to_euclidean_division_equations; lia.

(** *** Locating content *)

Lemma getPackageFile_outcome (pid filePath : jsstring) (st : Storage) :
  getPackageFile pid filePath st
  = match indexedDB st with
    | Failing _ => Rejected
    | _ => Resolved None
    end.
Proof.
  unfold getPackageFile. destruct (indexedDB st) as [|db|db]; try done.
  unfold indexGet. by induction (fileRows db).
Qed.

Lemma firstHit_outcome (pid : jsstring) (paths : list jsstring) (st : Storage) :
  paths <> [] ->
  firstHit pid paths st
  = match indexedDB st with
    | Failing _ => Rejected
    | _ => Resolved None
    end.
Proof.
  induction paths as [|fp rest IH]; [done|]. intros _. simpl.
  rewrite getPackageFile_outcome.
  destruct rest as [|fp' rest']; [by destruct (indexedDB st)|].
  rewrite IH by done. by destruct (indexedDB st).
Qed.

(** X23.  For an uploaded package [loadSCO] never obtains the content of
    an item: none of the six candidate paths is found, whatever the store
    holds, and unless the requests themselves fail the error thrown is
    "Content file <href> not found in package.". *)
Theorem locateContent_never_finds (lower : jsstring -> jsstring) (pid href : jsstring)
    (st : Storage) :
  (forall hit, locateContent lower pid href st <> Returned hit) /\
  length (possiblePaths lower href) = 6 /\
  head (possiblePaths lower href) = Some href /\
  ((forall db, indexedDB st <> Failing db) ->
   locateContent lower pid href st
   = Thrown (js "Content file " ++ href ++ js " not found in package.")).
Proof.
  unfold locateContent. rewrite firstHit_outcome by done.
  split; [|split; [done|split; [done|]]].
  - intros hit. by destruct (indexedDB st).
  - intros Hf. destruct (indexedDB st) as [|db|db] eqn:E; try done. by destruct (Hf db).
Qed.

Lemma locateContent_never_finds_witness :
  locateContent toLowerCase (js "scorm_1_abc") (js "a.html")
    (storePackage examplePackage emptyStorage)
  = Thrown (js "Content file a.html not found in package.").
Proof.
  rewrite (proj2 (proj2 (proj2 (locateContent_never_finds toLowerCase (js "scorm_1_abc")
             (js "a.html") (storePackage examplePackage emptyStorage))))).
  - by vm_compute.
  - intros db Hdb. discriminate Hdb.
Defined.

(** *** Decimal digits *)

Lemma digitsFrom_app (fuel : nat) : forall n acc,
  digitsFrom fuel n acc = digitsFrom fuel n [] ++ acc.
Proof.
  induction fuel as [|f IH]; intros n acc; simpl; [done|].
  destruct (n / 10 =? 0)%N; [done|].
  rewrite (IH _ (_ :: acc)), (IH _ [_]), <- app_assoc. done.
Qed.

Lemma digitsFrom_step (f : nat) (n : N) :
  digitsFrom (S f) n []
  = if (n / 10 =? 0)%N then [(48 + n mod 10)%N]
    else digitsFrom f (n / 10) [] ++ [(48 + n mod 10)%N].
Proof. simpl. destruct (n / 10 =? 0)%N; [done|]. apply digitsFrom_app. Qed.

Lemma isDigit_unit (n : N) : isDigit (48 + n mod 10) = true.
Proof.
  unfold isDigit, in_range. apply andb_true_iff. split; apply N.leb_le; dlia.
Qed.

Lemma digits_digitsFrom (fuel : nat) : forall n, digits (digitsFrom fuel n []).
Proof.
  induction fuel as [|f IH]; intros n; [constructor|].
  rewrite digitsFrom_step. destruct (n / 10 =? 0)%N.
  - repeat constructor. apply isDigit_unit.
  - apply Forall_app_2; [apply IH|]. repeat constructor. apply isDigit_unit.
Qed.


Lemma pow2_succ (f : nat) : (2 ^ N.of_nat (S f) = 2 * 2 ^ N.of_nat f)%N.
Proof. by rewrite Nat2N.inj_succ, N.pow_succ_r'. Qed.

Lemma pow10_succ (k : nat) : (10 ^ N.of_nat (S k) = 10 * 10 ^ N.of_nat k)%N.
Proof. by rewrite Nat2N.inj_succ, N.pow_succ_r'. Qed.

Lemma pow10_pos (k : nat) : (1 <= 10 ^ N.of_nat k)%N.
Proof.
  pose proof (N.pow_nonzero 10 (N.of_nat k)) as H.
  assert (10 ^ N.of_nat k <> 0)%N by (apply H; lia). lia.
Qed.


Lemma digitsFrom_nonempty (fuel : nat) (n : N) :
  1 <= fuel -> 1 <= length (digitsFrom fuel n []).
Proof.
  destruct fuel as [|f]; [lia|]. intros _. rewrite digitsFrom_step.
  destruct (n / 10 =? 0)%N; simpl; [lia|]. rewrite length_app. simpl. lia.
Qed.

(** A number has at most [k + 1] digits exactly when it is below
    [10 ^ (k + 1)]. *)
Lemma digitsFrom_length (fuel : nat) : forall n k,
  (n < 2 ^ N.of_nat fuel)%N -> 1 <= fuel ->
  length (digitsFrom fuel n []) <= S k <-> (n < 10 ^ N.of_nat (S k))%N.
Proof.
  induction fuel as [|f IH]; intros n k Hn Hf; [lia|].
  rewrite pow2_succ in Hn. rewrite digitsFrom_step, pow10_succ.
  pose proof (pow10_pos k) as Hk.
  destruct (N.eqb_spec (n / 10) 0) as [Hz|Hz].
  - simpl. split; [|lia]. intros _.
    set (Q := (10 ^ N.of_nat k)%N) in *. dlia.
  - assert (Hf' : 1 <= f).
    { destruct f; [|lia]. simpl in Hn. dlia. }
    assert (Hn' : (n / 10 < 2 ^ N.of_nat f)%N).
    { set (P := (2 ^ N.of_nat f)%N) in *. dlia. }
    rewrite length_app. simpl.
    pose proof (digitsFrom_nonempty f (n / 10) Hf') as Hne.
    destruct k as [|k'].
    + simpl. split; [lia|]. intros Hlt. dlia.
    + specialize (IH (n / 10)%N k' Hn' Hf'). rewrite pow10_succ in IH.
      rewrite pow10_succ.
      set (Q := (10 ^ N.of_nat k')%N) in *.
      split.
      * intros Hl. assert (Hl' : length (digitsFrom f (n / 10) []) <= S k') by lia.
        apply IH in Hl'. dlia.
      * intros Hlt. assert (Hq : (n / 10 < 10 * Q)%N) by dlia.
        apply IH in Hq. lia.
Qed.

Lemma numberToString_fuel (n : N) :
  (n < 2 ^ N.of_nat (S (N.to_nat (N.log2 n))))%N.
Proof.
  rewrite Nat2N.inj_succ, N2Nat.id.
  destruct (N.eq_dec n 0) as [->|Hn]; [by vm_compute|].
  apply N.log2_spec. lia.
Qed.


Lemma numberToString_digits (n : N) : digits (numberToString n).
Proof. apply digits_digitsFrom. Qed.

Lemma numberToString_length (n : N) (k : nat) :
  length (numberToString n) <= S k <-> (n < 10 ^ N.of_nat (S k))%N.
Proof. apply digitsFrom_length; [apply numberToString_fuel | lia]. Qed.

Lemma numberToString_nonempty (n : N) : 1 <= length (numberToString n).
Proof. apply digitsFrom_nonempty. lia. Qed.

(** *** The session clock *)

Lemma padStart2_length (w : jsstring) : length (padStart2 w) = Nat.max 2 (length w).
Proof. unfold padStart2. rewrite length_app, length_replicate. lia. Qed.

Lemma padStart2_digits (w : jsstring) : digits w -> digits (padStart2 w).
Proof.
  intros Hw. unfold padStart2. apply Forall_app_2; [|done].
  apply Forall_replicate. by vm_compute.
Qed.



(** A field of the clock that stays below 100 takes exactly two digits. *)
Lemma field_two (n : N) : (n < 100)%N -> length (padStart2 (numberToString n)) = 2.
Proof.
  intros Hn. rewrite padStart2_length.
  assert (H : length (numberToString n) <= 2).
  { apply (numberToString_length n 1). by vm_compute in *. }
  lia.
Qed.

Lemma digits_prefix (a b x y : jsstring) :
  digits a -> digits b -> a ++ 58%N :: x = b ++ 58%N :: y -> a = b.
Proof.
  intros Ha. revert b. induction Ha as [|c a Hc Ha IH]; intros b Hb Heq.
  - destruct Hb as [|d b Hd Hb]; [done|]. simpl in Heq. inversion Heq; subst.
    by vm_compute in Hd.
  - destruct Hb as [|d b Hd Hb]; simpl in Heq; inversion Heq; subst.
    + by vm_compute in Hc.
    + f_equal. by eapply IH.
Qed.

(** The three fields of the clock: digits only, the hours field at least
    two of them and at most four exactly below 10000 hours, the minutes and
    seconds fields exactly two. *)
Lemma clock_fields (seconds : N) :
  let h := padStart2 (numberToString (seconds / 3600)) in
  let mi := padStart2 (numberToString ((seconds mod 3600) / 60)) in
  let se := padStart2 (numberToString (seconds mod 60)) in
  digits h /\ digits mi /\ digits se /\
  2 <= length h /\ length mi = 2 /\ length se = 2 /\
  (length h <= 4 <-> (seconds < 36000000)%N).
Proof.
  cbv zeta.
  split; [apply padStart2_digits, numberToString_digits|].
  split; [apply padStart2_digits, numberToString_digits|].
  split; [apply padStart2_digits, numberToString_digits|].
  split; [rewrite padStart2_length; lia|].
  split; [apply field_two; dlia|].
  split; [apply field_two; dlia|].
  rewrite padStart2_length. split.
  - intros Hl.
    assert (H : length (numberToString (seconds / 3600)) <= 4) by lia.
    apply (numberToString_length _ 3) in H.
    change (10 ^ N.of_nat 4)%N with 10000%N in H. dlia.
  - intros Hs.
    assert (H : length (numberToString (seconds / 3600)) <= 4).
    { apply (numberToString_length _ 3).
      change (10 ^ N.of_nat 4)%N with 10000%N. dlia. }
    lia.
Qed.


Lemma clock_accepted (value : jsstring) (s : store) :
  initialized s = true ->
  (setValue (js "cmi.core.session_time") value s).1 = true <-> timeValue value.
Proof.
  intros Hs. rewrite <- test_timePattern.
  unfold setValue, validateSCORMElement. rewrite Hs. simpl. closed_tests. simpl.
  destruct (Nat.ltb_spec 4096 (length value)) as [Hl|Hl]; simpl.
  - split; [done|]. intros Ht. apply test_timePattern in Ht.
    destruct Ht as (h & mi & se & fr & -> & _ & Hhl & _ & Hmil & _ & Hsel & Hfr).
    change (js ":") with [58%N] in Hl. change (js ".") with [46%N] in Hfr.
    destruct Hfr as [->|(d & -> & _ & Hdl)];
      repeat (rewrite length_app in Hl; simpl in Hl); lia.
  - by destruct (test timePattern value).
Qed.

Lemma formatTime_timeValue (seconds : N) :
  timeValue (formatTime seconds) <-> (seconds < 36000000)%N.
Proof.
  destruct (clock_fields seconds) as (Hh & Hmi & Hse & Hh2 & Hmil & Hsel & Hlen).
  set (h := padStart2 (numberToString (seconds / 3600))) in *.
  set (mi := padStart2 (numberToString ((seconds mod 3600) / 60))) in *.
  set (se := padStart2 (numberToString (seconds mod 60))) in *.
  change (formatTime seconds) with (h ++ js ":" ++ mi ++ js ":" ++ se).
  split.
  - intros (h' & mi' & se' & fr' & Heq' & Hh' & Hhl' & _).
    apply Hlen. change (js ":") with [58%N] in Heq'.
    assert (h = h') as -> by (by eapply digits_prefix). lia.
  - intros Hs. apply Hlen in Hs. exists h, mi, se, [].
    rewrite app_nil_r. repeat split; try done. by left.
Qed.

(** X24.  The clock string that the player shows and that the demo content
    writes to [cmi.core.session_time] is accepted by an Active store
    exactly while the session is shorter than 10000 hours (36000000
    seconds); it is then stored and read back as written. *)
Theorem session_clock_accepted (elapsed : N) (s : store) :
  initialized s = true ->
  ((updateSessionTime elapsed s).1 = js "true" <-> (elapsed < 36000000)%N) /\
  ((elapsed < 36000000)%N ->
   (getValue (js "cmi.core.session_time") (updateSessionTime elapsed s).2).1
   = formatTime elapsed) /\
  ((36000000 <= elapsed)%N ->
   (updateSessionTime elapsed s).1 = js "false" /\
   getLastError (updateSessionTime elapsed s).2 = js "405" /\
   data (updateSessionTime elapsed s).2 = data s).
Proof.
  intros Hs. unfold updateSessionTime, LMSSetValue. simpl.
  pose proof (clock_accepted (formatTime elapsed) s Hs) as Hacc.
  rewrite formatTime_timeValue in Hacc.
  split; [by rewrite boolString_true|]. split.
  - intros Hlt. apply Hacc in Hlt.
    destruct (accepted_read _ _ _ Hs Hlt) as (-> & Hv & _).
    apply plain_untouched; [|by apply validate_length in Hv].
    apply timeValue_plain, formatTime_timeValue. by apply Hacc.
  - intros Hge.
    assert (Hno : (setValue (js "cmi.core.session_time") (formatTime elapsed) s).1 = false).
    { apply not_true_is_false. intros E. apply Hacc in E. lia. }
    rewrite Hno. split; [done|].
    revert Hno. unfold setValue, getLastError. rewrite Hs. simpl.
    replace (includes readOnlyElements (js "cmi.core.session_time")) with false
      by (by vm_compute).
    destruct (validateSCORMElement _ _); simpl; [done|]. intros _. by vm_compute.
Qed.

Lemma session_clock_accepted_witness :
  (getValue (js "cmi.core.session_time") (updateSessionTime 3725 activeStore).2).1
  = js "01:02:05".
Proof.
  rewrite (proj1 (proj2 (session_clock_accepted 3725 activeStore eq_refl)));
    by vm_compute.
Defined.

End PlayerFacts.
